(** * add_files_to_xcode.py: a shallow embedding and its properties

    The script registers a fixed list of Swift files in an Xcode project
    manifest by textual patching.  The embedding follows the script line
    by line: the manifest is a list of characters, the regular expressions
    are run by a small backtracking matcher with Python's priorities
    (leftmost match, greedy and lazy stars), [str.replace] and [re.sub]
    are the library operations the script calls, the random identifiers
    come from an explicit source, and the file system and the console are
    threaded through the run as explicit state.

    Characters are 8-bit ([ascii]); the manifest is assumed to be ASCII
    text, on which [\w] is the class [A-Za-z0-9_]. *)

From Stdlib Require Import String DecimalString.
From Stdlib Require Import List Ascii Bool Arith Lia NArith.
Import ListNotations.

(** ** Text *)

Definition str := list ascii.

Definition txt (s : String.string) : str := String.list_ascii_of_string s.
Arguments txt s%_string.

Definition TAB : ascii := ascii_of_nat 9.
Definition LF : ascii := ascii_of_nat 10.
Definition CR : ascii := ascii_of_nat 13.
Definition BSLASH : ascii := ascii_of_nat 92.

Definition eqc (a b : ascii) : bool := Ascii.eqb a b.

Fixpoint str_eqb (a b : str) : bool :=
  match a, b with
  | [], [] => true
  | x :: a', y :: b' => eqc x y && str_eqb a' b'
  | _, _ => false
  end.

(** [strip_prefix p s] is [Some r] when [s = p ++ r]. *)
Fixpoint strip_prefix (p s : str) : option str :=
  match p with
  | [] => Some s
  | x :: p' =>
      match s with
      | [] => None
      | y :: s' => if eqc x y then strip_prefix p' s' else None
      end
  end.

Definition startswith (p s : str) : bool :=
  match strip_prefix p s with Some _ => true | None => false end.

(** [needle in haystack] on Python strings. *)
Fixpoint contains (needle hay : str) : bool :=
  startswith needle hay ||
  match hay with
  | [] => false
  | _ :: hay' => contains needle hay'
  end.

(** [os.path.basename]: what follows the last slash. *)
Fixpoint basename (p : str) : str :=
  match p with
  | [] => []
  | c :: p' => if contains (txt "/") p' then basename p' else
               if eqc c "/"%char then p' else p
  end.

(** [str(n)] for a natural number. *)
Definition str_of_nat (n : nat) : str :=
  txt (DecimalString.NilZero.string_of_uint (Nat.to_uint n)).

(** Text-mode reading translates every line ending to a line feed. *)
Fixpoint universal_newlines (b : str) : str :=
  match b with
  | [] => []
  | c :: b' =>
      if eqc c CR then
        match b' with
        | d :: b'' => if eqc d LF then LF :: universal_newlines b''
                      else LF :: universal_newlines b'
        | [] => [LF]
        end
      else c :: universal_newlines b'
  end.

(** ** generate_uuid *)

(** [uuid.uuid4]: 128 random bits with the variant and version fields
    forced. *)
Definition uuid4 (r : N) : N :=
  let r := N.land r (N.ones 128) in
  let r := N.ldiff r (N.shiftl 0xc000 48) in
  let r := N.lor r (N.shiftl 0x8000 48) in
  let r := N.ldiff r (N.shiftl 0xf000 64) in
  N.lor r (N.shiftl 4 76).

Definition hex_digit_upper (d : N) : ascii :=
  if (d <? 10)%N then ascii_of_N (48 + d) else ascii_of_N (55 + d).

(** The [k] leading hexadecimal digits of a 128-bit number, most
    significant first, in upper case. *)
Fixpoint hex_upper_from (k : nat) (pos : N) (v : N) : str :=
  match k with
  | O => []
  | S k' =>
      hex_digit_upper (N.land (N.shiftr v (4 * pos)) 15)
        :: hex_upper_from k' (pos - 1) v
  end.

(** [str(uuid.uuid4()).replace('-', '').upper()[:24]] *)
Definition generate_uuid (r : N) : str :=
  hex_upper_from 24 31 (uuid4 r).

(** ** Regular expressions *)

(** The script's patterns are sequences of literals, bounded repetitions
    of a character class and greedy or lazy stars of a character class. *)
Inductive item : Type :=
| Lit (l : str)
| Rep (n : nat) (p : ascii -> bool)
| StarG (p : ascii -> bool)
| StarL (p : ascii -> bool).

Fixpoint take_class (n : nat) (p : ascii -> bool) (s : str)
  : option (str * str) :=
  match n with
  | O => Some ([], s)
  | S n' =>
      match s with
      | [] => None
      | c :: s' =>
          if p c then
            match take_class n' p s' with
            | Some (a, r) => Some (c :: a, r)
            | None => None
            end
          else None
      end
  end.

Definition push_piece (x : str) (m : option (list str * str))
  : option (list str * str) :=
  match m with
  | Some (ps, r) => Some (x :: ps, r)
  | None => None
  end.

Definition grow_piece (c : ascii) (m : option (list str * str))
  : option (list str * str) :=
  match m with
  | Some (x :: ps, r) => Some ((c :: x) :: ps, r)
  | _ => None
  end.

(** [match_here re s] matches [re] at the start of [s] and returns the
    text consumed by each item and the rest of [s]; among the possible
    matches it returns the one a backtracking matcher finds first. *)
Fixpoint match_here (re : list item) : str -> option (list str * str) :=
  match re with
  | [] => fun s => Some ([], s)
  | Lit l :: re' => fun s =>
      match strip_prefix l s with
      | Some r => push_piece l (match_here re' r)
      | None => None
      end
  | Rep n p :: re' => fun s =>
      match take_class n p s with
      | Some (a, r) => push_piece a (match_here re' r)
      | None => None
      end
  | StarG p :: re' =>
      fix star (s : str) : option (list str * str) :=
        match s with
        | c :: s' =>
            if p c then
              match star s' with
              | Some m => grow_piece c (Some m)
              | None => push_piece [] (match_here re' s)
              end
            else push_piece [] (match_here re' s)
        | [] => push_piece [] (match_here re' s)
        end
  | StarL p :: re' =>
      fix star (s : str) : option (list str * str) :=
        match match_here re' s with
        | Some m => push_piece [] (Some m)
        | None =>
            match s with
            | c :: s' => if p c then grow_piece c (star s') else None
            | [] => None
            end
        end
  end.

(** A match: the text before it, the pieces matched by the items, the
    text after it. *)
Record rmatch : Type := mkMatch {
  m_before : str;
  m_pieces : list str;
  m_after : str
}.

(** [re.search]: the leftmost position where the pattern matches. *)
Fixpoint search (re : list item) (s : str) : option rmatch :=
  match match_here re s with
  | Some (ps, r) => Some (mkMatch [] ps r)
  | None =>
      match s with
      | [] => None
      | c :: s' =>
          match search re s' with
          | Some m => Some (mkMatch (c :: m_before m) (m_pieces m) (m_after m))
          | None => None
          end
      end
  end.

(** [m.group(0)] *)
Definition group0 (m : rmatch) : str := concat (m_pieces m).

(** A capturing group that spans the items [from .. from + len - 1]. *)
Definition group_span (from len : nat) (m : rmatch) : str :=
  concat (firstn len (skipn from (m_pieces m))).

(** ** str.replace and re.sub *)

Fixpoint replace_go (fuel : nat) (old new s : str) : str :=
  match fuel with
  | O => s
  | S f =>
      match strip_prefix old s with
      | Some r => new ++ replace_go f old new r
      | None =>
          match s with
          | [] => []
          | c :: s' => c :: replace_go f old new s'
          end
      end
  end.

(** [s.replace(old, new)]: every non-overlapping occurrence, from the
    left.  An empty [old] matches before every character and at the
    end. *)
Definition str_replace (s old new : str) : str :=
  match old with
  | [] => new ++ flat_map (fun c => c :: new) s
  | _ :: _ => replace_go (S (length s)) old new s
  end.

(** A replacement template, as [re.sub] parses its [repl] argument:
    literal text and references to groups. *)
Inductive chunk : Type :=
| Text (c : ascii)
| GroupRef (n : nat).

Definition is_digit (c : ascii) : bool :=
  let n := nat_of_ascii c in (48 <=? n) && (n <=? 57).

Definition is_octdigit (c : ascii) : bool :=
  let n := nat_of_ascii c in (48 <=? n) && (n <=? 55).

Definition is_ascii_letter (c : ascii) : bool :=
  let n := nat_of_ascii c in
  ((65 <=? n) && (n <=? 90)) || ((97 <=? n) && (n <=? 122)).

Definition is_word (c : ascii) : bool :=
  is_digit c || is_ascii_letter c || eqc c "_"%char.

Definition digit_val (c : ascii) : nat := nat_of_ascii c - 48.

(** The escapes of a template that stand for one character. *)
Definition template_escape (c : ascii) : option ascii :=
  if eqc c "a"%char then Some (ascii_of_nat 7) else
  if eqc c "b"%char then Some (ascii_of_nat 8) else
  if eqc c "f"%char then Some (ascii_of_nat 12) else
  if eqc c "n"%char then Some LF else
  if eqc c "r"%char then Some CR else
  if eqc c "t"%char then Some TAB else
  if eqc c "v"%char then Some (ascii_of_nat 11) else
  if eqc c BSLASH then Some BSLASH else None.

(** The decimal name of [\g<name>]: all digits up to the closing [>]. *)
Fixpoint group_name (s : str) (acc : nat) (seen : bool)
  : option (nat * str) :=
  match s with
  | [] => None
  | c :: s' =>
      if eqc c ">"%char then (if seen then Some (acc, s') else None)
      else if is_digit c then group_name s' (10 * acc + digit_val c) true
      else None
  end.

(** [parse_template]: [None] when the template is rejected ([re.error]
    or [IndexError]).  [groups] is the number of groups of the pattern;
    no group of the script's patterns is named. *)
Fixpoint parse_template (fuel : nat) (groups : nat) (s : str)
  : option (list chunk) :=
  match fuel with
  | O => Some []
  | S f =>
      match s with
      | [] => Some []
      | c :: s1 =>
          if negb (eqc c BSLASH) then
            option_map (cons (Text c)) (parse_template f groups s1)
          else
            match s1 with
            | [] => None
            | e :: s2 =>
                if eqc e "g"%char then
                  match s2 with
                  | lt :: s3 =>
                      if eqc lt "<"%char then
                        match group_name s3 0 false with
                        | Some (n, s4) =>
                            if n <=? groups then
                              option_map (cons (GroupRef n))
                                         (parse_template f groups s4)
                            else None
                        | None => None
                        end
                      else None
                  | [] => None
                  end
                else if eqc e "0"%char then
                  match s2 with
                  | d1 :: s3 =>
                      if is_octdigit d1 then
                        match s3 with
                        | d2 :: s4 =>
                            if is_octdigit d2 then
                              option_map
                                (cons (Text (ascii_of_nat
                                   ((8 * digit_val d1 + digit_val d2) mod 256))))
                                (parse_template f groups s4)
                            else
                              option_map
                                (cons (Text (ascii_of_nat (digit_val d1))))
                                (parse_template f groups s3)
                        | [] => Some [Text (ascii_of_nat (digit_val d1))]
                        end
                      else
                        option_map (cons (Text (ascii_of_nat 0)))
                                   (parse_template f groups s2)
                  | [] => Some [Text (ascii_of_nat 0)]
                  end
                else if is_digit e then
                  match s2 with
                  | d1 :: s3 =>
                      if is_digit d1 then
                        match s3 with
                        | d2 :: s4 =>
                            if is_octdigit e && is_octdigit d1 && is_octdigit d2
                            then
                              let v := 64 * digit_val e + 8 * digit_val d1
                                       + digit_val d2 in
                              if v <=? 255 then
                                option_map (cons (Text (ascii_of_nat v)))
                                           (parse_template f groups s4)
                              else None
                            else
                              let n := 10 * digit_val e + digit_val d1 in
                              if n <=? groups then
                                option_map (cons (GroupRef n))
                                           (parse_template f groups s3)
                              else None
                        | [] =>
                            let n := 10 * digit_val e + digit_val d1 in
                            if n <=? groups then Some [GroupRef n] else None
                        end
                      else
                        if digit_val e <=? groups then
                          option_map (cons (GroupRef (digit_val e)))
                                     (parse_template f groups s2)
                        else None
                  | [] =>
                      if digit_val e <=? groups then
                        Some [GroupRef (digit_val e)]
                      else None
                  end
                else
                  match template_escape e with
                  | Some x =>
                      option_map (cons (Text x)) (parse_template f groups s2)
                  | None =>
                      if is_ascii_letter e then None
                      else option_map (fun t => Text c :: Text e :: t)
                                      (parse_template f groups s2)
                  end
            end
      end
  end.

Definition expand_chunk (gs : list str) (k : chunk) : str :=
  match k with
  | Text c => [c]
  | GroupRef n => nth n gs []
  end.

Definition expand_template (t : list chunk) (gs : list str) : str :=
  flat_map (expand_chunk gs) t.

Fixpoint sub_go (fuel : nat) (re : list item) (repl : list str -> str)
  (s : str) : str :=
  match fuel with
  | O => s
  | S f =>
      match match_here re s with
      | Some (ps, r) =>
          match concat ps, s with
          | [], c :: s' => repl ps ++ c :: sub_go f re repl s'
          | [], [] => repl ps
          | _ :: _, _ => repl ps ++ sub_go f re repl r
          end
      | None =>
          match s with
          | [] => []
          | c :: s' => c :: sub_go f re repl s'
          end
      end
  end.

(** [re.sub(pattern, repl, s)] for a string [repl]: [None] when the
    template is rejected.  [groups] is the number of groups of the
    pattern and [groups_of] gives the values of the groups 0, 1, ... of
    a match from its pieces.  An empty match is replaced and the scan
    moves on by one character; the pattern the script substitutes holds
    a literal and never matches the empty string. *)
Definition re_sub (re : list item) (groups : nat)
  (groups_of : list str -> list str) (repl s : str) : option str :=
  match parse_template (S (length repl)) groups repl with
  | None => None
  | Some t =>
      Some (sub_go (S (length s)) re
                   (fun ps => expand_template t (groups_of ps)) s)
  end.

(** ** The script *)

Definition files_to_add : list str :=
  [ txt "TransactionsTestTask/Core/Logging/BitcoinRateLogger.swift";
    txt "TransactionsTestTask/Domain/UseCases/AddTransactionUseCase.swift";
    txt "TransactionsTestTask/Domain/UseCases/UpdateBitcoinRateUseCase.swift";
    txt "TransactionsTestTask/Domain/UseCases/FetchTransactionsUseCase.swift";
    txt "TransactionsTestTask/Presentation/ViewModels/AddTransactionViewModel.swift";
    txt "TransactionsTestTask/Presentation/ViewModels/DashboardViewModel.swift";
    txt "TransactionsTestTask/Presentation/Views/Dashboard/DashboardViewController.swift";
    txt "TransactionsTestTask/Presentation/Views/Dashboard/DashboardHeaderView.swift";
    txt "TransactionsTestTask/Presentation/Views/Dashboard/TransactionListView.swift";
    txt "TransactionsTestTask/Presentation/Views/Common/LoadMoreTableViewCell.swift";
    txt "TransactionsTestTask/Presentation/Views/Common/TransactionTableViewCell.swift";
    txt "TransactionsTestTask/Presentation/Views/AddTransaction/AddTransactionViewController.swift";
    txt "TransactionsTestTask/Core/Coordinator/AppCoordinator.swift" ].

Definition project_file : str :=
  txt "TransactionsTestTask.xcodeproj/project.pbxproj".

Definition not_rbrace (c : ascii) : bool := negb (eqc c "}"%char).
Definition not_rparen (c : ascii) : bool := negb (eqc c ")"%char).
Definition any_char (c : ascii) : bool := true.

(** [(\w{24}) = \{[^}]*isa = PBXGroup;[^}]*name = TransactionsTestTask;] *)
Definition main_group_re : list item :=
  [ Rep 24 is_word; Lit (txt " = {"); StarG not_rbrace;
    Lit (txt "isa = PBXGroup;"); StarG not_rbrace;
    Lit (txt "name = TransactionsTestTask;") ].

(** [(\w{24}) = \{[^}]*isa = PBXSourcesBuildPhase;] *)
Definition sources_phase_re : list item :=
  [ Rep 24 is_word; Lit (txt " = {"); StarG not_rbrace;
    Lit (txt "isa = PBXSourcesBuildPhase;") ].

Definition begin_marker (name : str) : str :=
  txt "/* Begin " ++ name ++ txt " section */".

Definition end_marker (name : str) : str :=
  txt "/* End " ++ name ++ txt " section */".

(** [(\/\* Begin NAME section \*\/.*?)\/\* End NAME section \*\/] with
    [re.DOTALL]: group 1 is the first two items. *)
Definition section_re (name : str) : list item :=
  [ Lit (begin_marker name); StarL any_char; Lit (end_marker name) ].

Definition FileReference : str := txt "PBXFileReference".
Definition BuildFile : str := txt "PBXBuildFile".

(** The pattern built from the phase identifier: the identifier, [ = {],
    a greedy run of characters other than the closing brace, [files = (]
    and a greedy run of characters other than the closing parenthesis.
    The identifier is made of word characters, which stand for
    themselves in a pattern; group 1 is the whole match. *)
Definition sources_phase_pattern (sources_phase_id : str) : list item :=
  [ Lit sources_phase_id; Lit (txt " = {"); StarG not_rbrace;
    Lit (txt "files = ("); StarG not_rparen ].

Definition DQUOTE : ascii := ascii_of_nat 34.

Definition file_ref_entry (file_ref_id filename : str) : str :=
  [TAB; TAB] ++ file_ref_id ++ txt " /* " ++ filename
  ++ txt " */ = {isa = PBXFileReference; lastKnownFileType = sourcecode.swift; path = "
  ++ filename ++ txt "; sourceTree = " ++ [DQUOTE] ++ txt "<group>"
  ++ [DQUOTE] ++ txt "; };" ++ [LF].

Definition build_file_entry (build_file_id file_ref_id filename : str) : str :=
  [TAB; TAB] ++ build_file_id ++ txt " /* " ++ filename
  ++ txt " in Sources */ = {isa = PBXBuildFile; fileRef = " ++ file_ref_id
  ++ txt " /* " ++ filename ++ txt " */; };" ++ [LF].

Definition sources_entry (build_file_id filename : str) : str :=
  [TAB; TAB; TAB; TAB] ++ build_file_id ++ txt " /* " ++ filename
  ++ txt " in Sources */," ++ [LF].

(** A Python dict with string keys: insertion order is kept, and a key
    that is set again keeps its place. *)
Definition dict := list (str * str).

Fixpoint dict_set (k v : str) (d : dict) : dict :=
  match d with
  | [] => [(k, v)]
  | (k', v') :: d' =>
      if str_eqb k k' then (k, v) :: d' else (k', v') :: dict_set k v d'
  end.

Fixpoint dict_get (k : str) (d : dict) : option str :=
  match d with
  | [] => None
  | (k', v) :: d' => if str_eqb k k' then Some v else dict_get k d'
  end.

(** The state of the loop over [files_to_add]: the two dicts, the number
    of identifiers drawn so far and the lines printed. *)
Record loop_state : Type := mkLoop {
  file_refs : dict;
  build_files : dict;
  drawn : nat;
  printed : list str
}.

Definition already_exists_line (file_path : str) : str :=
  txt "File " ++ file_path ++ txt " already exists in project".

(** One iteration; [rnd k] is the random number behind the [k]-th call
    of [generate_uuid]. *)
Definition loop_step (rnd : nat -> N) (content : str)
  (st : loop_state) (file_path : str) : loop_state :=
  if contains file_path content then
    mkLoop (file_refs st) (build_files st) (drawn st)
           (printed st ++ [already_exists_line file_path])
  else
    let file_ref_id := generate_uuid (rnd (drawn st)) in
    let build_file_id := generate_uuid (rnd (S (drawn st))) in
    mkLoop (dict_set file_path file_ref_id (file_refs st))
           (dict_set file_path build_file_id (build_files st))
           (S (S (drawn st)))
           (printed st).

Definition collect (files : list str) (rnd : nat -> N) (content : str)
  : loop_state :=
  fold_left (loop_step rnd content) files (mkLoop [] [] 0 []).

(** The three patch steps.  Each one looks its section up in the current
    text and leaves the text as it is when the lookup fails. *)

Definition file_ref_block (frefs : dict) (init : str) : str :=
  fold_left
    (fun acc kv => acc ++ file_ref_entry (snd kv) (basename (fst kv)))
    frefs init.

Definition add_file_references (content : str) (frefs : dict) : str :=
  match search (section_re FileReference) content with
  | None => content
  | Some m =>
      let file_ref_content := file_ref_block frefs (group_span 0 2 m) in
      str_replace content (group0 m)
                  (file_ref_content ++ end_marker FileReference)
  end.

(** [file_refs[file_path]] raises [KeyError] on a missing key: [None]. *)
Fixpoint build_file_block (frefs bfiles : dict) (init : str) : option str :=
  match bfiles with
  | [] => Some init
  | (file_path, build_file_id) :: rest =>
      match dict_get file_path frefs with
      | None => None
      | Some file_ref_id =>
          build_file_block frefs rest
            (init ++ build_file_entry build_file_id file_ref_id
                                      (basename file_path))
      end
  end.

Definition add_build_files (content : str) (frefs bfiles : dict)
  : option str :=
  match search (section_re BuildFile) content with
  | None => Some content
  | Some m =>
      match build_file_block frefs bfiles (group_span 0 2 m) with
      | None => None
      | Some build_file_content =>
          Some (str_replace content (group0 m)
                            (build_file_content ++ end_marker BuildFile))
      end
  end.

Definition sources_block (bfiles : dict) (init : str) : str :=
  fold_left
    (fun acc kv => acc ++ sources_entry (snd kv) (basename (fst kv)))
    bfiles init.

(** The groups 0 and 1 of a match of [sources_phase_pattern]. *)
Definition phase_groups (ps : list str) : list str :=
  [concat ps; concat ps].

(** [None] when [re.sub] rejects the replacement text. *)
Definition add_to_sources_phase (sources_phase_id content : str)
  (bfiles : dict) : option str :=
  let pat := sources_phase_pattern sources_phase_id in
  match search pat content with
  | None => Some content
  | Some m =>
      let sources_content := sources_block bfiles (group_span 0 5 m) in
      re_sub pat 1 phase_groups sources_content content
  end.

(** ** The run *)

(** What a run does to the project file, what it prints, and whether it
    ended in an exception. *)
Inductive fs_effect : Type :=
| NoWrite
| Write (content : str).

Record result : Type := mkResult {
  effect : fs_effect;
  console : list str;
  raised : bool
}.

Definition added_report (frefs : dict) : list str :=
  (txt "Added " ++ str_of_nat (length frefs) ++ txt " files to Xcode project")
    :: map (fun kv => txt "  - " ++ fst kv) frefs.

(** The script from line 63 on.  [main_group_id] and [sources_phase_id]
    are the identifiers captured by the two gates. *)
Definition run_after_gates (files : list str) (rnd : nat -> N)
  (main_group_id sources_phase_id content : str) : result :=
  let st := collect files rnd content in
  match file_refs st with
  | [] =>
      mkResult NoWrite
               (printed st ++ [txt "All files already exist in project"])
               false
  | _ :: _ =>
      let content1 := add_file_references content (file_refs st) in
      match add_build_files content1 (file_refs st) (build_files st) with
      | None => mkResult NoWrite (printed st) true
      | Some content2 =>
          match add_to_sources_phase sources_phase_id content2
                                     (build_files st) with
          | None => mkResult NoWrite (printed st) true
          | Some content3 =>
              mkResult (Write content3)
                       (printed st ++ added_report (file_refs st))
                       false
          end
      end
  end.

(** The whole script, over the list of files, the random source and the
    project file as it is on disk ([None]: no such file).  Text is
    written back as it is (POSIX line endings). *)
Definition add_files (files : list str) (rnd : nat -> N)
  (disk : option str) : result :=
  match disk with
  | None =>
      mkResult NoWrite [txt "Error: " ++ project_file ++ txt " not found"]
               false
  | Some bytes =>
      let content := universal_newlines bytes in
      match search main_group_re content with
      | None =>
          mkResult NoWrite [txt "Error: Could not find main group"] false
      | Some main_group_match =>
          let main_group_id := group_span 0 1 main_group_match in
          match search sources_phase_re content with
          | None =>
              mkResult NoWrite
                       [txt "Error: Could not find sources build phase"]
                       false
          | Some sources_phase_match =>
              let sources_phase_id := group_span 0 1 sources_phase_match in
              run_after_gates files rnd main_group_id sources_phase_id
                              content
          end
      end
  end.

Definition add_files_to_xcode_project : (nat -> N) -> option str -> result :=
  add_files files_to_add.

(** The project file after a run. *)
Definition disk_after (disk : option str) (r : result) : option str :=
  match effect r with
  | NoWrite => disk
  | Write c => Some c
  end.

(** ** Sample manifests *)

Definition sample_id : str := txt "AAAAAAAAAAAAAAAAAAAAAAAA".
Definition sample_phase_id : str := txt "BBBBBBBBBBBBBBBBBBBBBBBB".

Definition sample_group : str :=
  sample_id ++ txt " = {isa = PBXGroup; name = TransactionsTestTask; };" ++ [LF].

Definition sample_phase : str :=
  sample_phase_id
  ++ txt " = {isa = PBXSourcesBuildPhase; files = (" ++ [LF]
  ++ txt "CCCC /* Main.swift in Sources */," ++ [LF] ++ txt "); };" ++ [LF].

Definition sample_sections : str :=
  txt "/* Begin PBXBuildFile section */" ++ [LF]
  ++ txt "/* End PBXBuildFile section */" ++ [LF]
  ++ txt "/* Begin PBXFileReference section */" ++ [LF]
  ++ txt "/* End PBXFileReference section */" ++ [LF].

Definition sample_project : str :=
  sample_sections ++ sample_group ++ sample_phase.

Definition sample_rnd (k : nat) : N := N.of_nat (S k) * 0x1000000000000000000000001.

(** ** Auxiliary notions for the statements *)

Definition present (content file_path : str) : bool :=
  contains file_path content.

Definition absent (content file_path : str) : bool :=
  negb (contains file_path content).

(** The keys of a dict filled from a list of paths: first occurrences,
    in order. *)
Definition add_key (ks : list str) (k : str) : list str :=
  if existsb (str_eqb k) ks then ks else ks ++ [k].

Definition keys_of (paths : list str) : list str :=
  fold_left add_key paths [].


(** A manifest that holds every target path and none of the records the
    script looks for. *)
Definition paths_only : str := concat files_to_add.

(** A manifest on which both gates pass and every target path occurs. *)
Definition sample_complete : str := sample_project ++ paths_only.

(** A manifest with the two records the gates look for and none of the
    three sections the patch steps look for. *)
Definition bare_project : str :=
  sample_group ++ sample_phase_id
  ++ txt " = {isa = PBXSourcesBuildPhase; };" ++ [LF].

(** Two target paths and a text that holds the first one only. *)
Definition path_here : str := txt "App/Here.swift".
Definition path_new : str := txt "App/New.swift".
Definition only_here : str := txt "/* App/Here.swift */".




(** The sample manifest with the first of the two paths in a comment. *)
Definition sample_with_here : str := sample_project ++ only_here.

(** Eleven of the thirteen target paths, as a comment block. *)
Definition eleven_paths : str := concat (skipn 2 files_to_add).

(** A sources phase whose only member is a file with a backslash in its
    name. *)
Definition phase_with (member : str) : str :=
  sample_phase_id
  ++ txt " = {isa = PBXSourcesBuildPhase; files = (" ++ [LF]
  ++ member ++ [LF] ++ txt "); };" ++ [LF].

Definition member_tools : str :=
  txt "CCCC /* Gen" ++ [BSLASH] ++ txt "tools.swift in Sources */,".

Definition member_query : str :=
  txt "CCCC /* Gen" ++ [BSLASH] ++ txt "query.swift in Sources */,".

Definition project_tools : str :=
  sample_sections ++ sample_group ++ phase_with member_tools ++ eleven_paths.

Definition project_query : str :=
  sample_sections ++ sample_group ++ phase_with member_query.

(** A sources phase with a backslash pair ahead of its files list. *)
Definition phase_head_escaped : str :=
  sample_phase_id
  ++ txt " = {isa = PBXSourcesBuildPhase; note = " ++ [BSLASH; BSLASH]
  ++ txt "; files = (" ++ [LF] ++ txt "); };" ++ [LF].

Definition project_escaped : str :=
  sample_sections ++ sample_group ++ phase_head_escaped.


(** The text a run wrote, if it wrote. *)
Definition written (r : result) : option str :=
  match effect r with
  | NoWrite => None
  | Write c => Some c
  end.

Definition disk_eqb (a b : option str) : bool :=
  match a, b with
  | None, None => true
  | Some x, Some y => str_eqb x y
  | _, _ => false
  end.

(** The random source of a second run: what follows the first run's
    twenty-six draws. *)
Definition later_rnd (k : nat) : N := sample_rnd (k + 26).

Definition added_13 : str := txt "Added 13 files to Xcode project".

(** [t] occurs in [s]. *)
Definition Sub (t s : str) : Prop := exists a b, s = a ++ t ++ b.

(** [ins_before E X s t]: [t] is [s] with copies of [X] put in front of
    some of the places where [E] starts. *)
Inductive ins_before (E X : str) : str -> str -> Prop :=
| ib_nil : ins_before E X [] []
| ib_keep (c : ascii) (s t : str) :
    ins_before E X s t -> ins_before E X (c :: s) (c :: t)
| ib_ins (c : ascii) (s t : str) :
    startswith E (c :: s) = true ->
    ins_before E X s t -> ins_before E X (c :: s) (X ++ c :: t).


(** The entries the three steps append, one per queued file. *)
Definition file_ref_entries (frefs : dict) : list str :=
  map (fun kv => file_ref_entry (snd kv) (basename (fst kv))) frefs.

Definition ref_of (frefs : dict) (file_path : str) : str :=
  match dict_get file_path frefs with
  | Some file_ref_id => file_ref_id
  | None => []
  end.

Definition build_file_entries (frefs bfiles : dict) : list str :=
  map (fun kv => build_file_entry (snd kv) (ref_of frefs (fst kv))
                                  (basename (fst kv))) bfiles.

Definition sources_entries (bfiles : dict) : list str :=
  map (fun kv => sources_entry (snd kv) (basename (fst kv))) bfiles.

Definition not_bslash (c : ascii) : bool := negb (eqc c BSLASH).

(** A character that is neither a backslash nor a closing parenthesis. *)
Definition plain (c : ascii) : bool := not_bslash c && not_rparen c.

Definition is_hex (c : ascii) : bool :=
  existsb (eqc c) (txt "0123456789ABCDEF").

(** The sample manifest after the first two steps, and the match of the
    phase pattern in it. *)
Definition sample_queue : loop_state :=
  collect files_to_add sample_rnd sample_project.

Definition sample_after_two : str :=
  match add_build_files
          (add_file_references sample_project (file_refs sample_queue))
          (file_refs sample_queue) (build_files sample_queue) with
  | Some c => c
  | None => []
  end.

Definition sample_phase_match : rmatch :=
  match search (sources_phase_pattern sample_phase_id) sample_after_two with
  | Some m => m
  | None => mkMatch [] [] []
  end.

(** Whether a pattern matches somewhere in a text. *)
Definition matches (re : list item) (s : str) : bool :=
  match search re s with
  | Some _ => true
  | None => false
  end.

(** ** The members of a files list *)








(** In a match of the phase pattern: the text up to and including
    [files = (], and the list text that follows it. *)
Definition phase_head (m : rmatch) : str := concat (firstn 4 (m_pieces m)).
Definition phase_list (m : rmatch) : str := nth 4 (m_pieces m) [].

(** The sample manifest with eleven of the target paths in it, so that a
    run adds two files; the text after the first two steps and the match
    of the phase pattern in it. *)
Definition sample_two : str := sample_project ++ eleven_paths.





(** ** Notions for the properties of the helpers *)

Definition not_cr (c : ascii) : bool := negb (eqc c CR).

Definition not_slash (c : ascii) : bool := negb (eqc c "/"%char).

(** [s] is [t] with some characters left out. *)
Inductive subseq : str -> str -> Prop :=
| ss_nil : subseq [] []
| ss_keep (c : ascii) (s t : str) : subseq s t -> subseq (c :: s) (c :: t)
| ss_skip (c : ascii) (s t : str) : subseq s t -> subseq s (c :: t).

(** The dict that gives the [k]-th of [paths], counted from [from], the
    identifier of draw [2 * k + offset]. *)
Definition allocate (rnd : nat -> N) (offset from : nat) (paths : list str)
  : dict :=
  map (fun ip => (snd ip, generate_uuid (rnd (2 * fst ip + offset))))
      (combine (seq from (length paths)) paths).

(** The matches of the two section patterns in the sample manifest. *)
Definition sample_ref_match : rmatch :=
  match search (section_re FileReference) sample_project with
  | Some m => m
  | None => mkMatch [] [] []
  end.

Definition sample_build_match : rmatch :=
  match search (section_re BuildFile) sample_project with
  | Some m => m
  | None => mkMatch [] [] []
  end.
(** * Properties *)

(** ** Text comparison *)

Lemma eqc_eq (a b : ascii) : eqc a b = true <-> a = b.
Proof. unfold eqc. apply Ascii.eqb_eq. Qed.

Lemma eqc_refl (a : ascii) : eqc a a = true.
Proof. apply eqc_eq. reflexivity. Qed.

Lemma str_eqb_eq (a b : str) : str_eqb a b = true <-> a = b.
Proof.
  revert b. induction a as [|x a IH]; intros [|y b]; simpl; split;
    try congruence; try reflexivity.
  - intros H. apply andb_true_iff in H. destruct H as [H1 H2].
    apply eqc_eq in H1. apply IH in H2. congruence.
  - intros H. injection H as -> ->. rewrite eqc_refl. simpl.
    apply IH. reflexivity.
Qed.

Lemma str_eqb_refl (a : str) : str_eqb a a = true.
Proof. apply str_eqb_eq. reflexivity. Qed.

Lemma strip_prefix_app (p s r : str) :
  strip_prefix p s = Some r <-> s = p ++ r.
Proof.
  revert s. induction p as [|x p IH]; intros s; simpl.
  - split; congruence.
  - destruct s as [|y s]; [split; discriminate|].
    destruct (eqc x y) eqn:E.
    + apply eqc_eq in E. subst y. rewrite IH. split; congruence.
    + split; [discriminate|]. intros H. injection H as -> _.
      rewrite eqc_refl in E. discriminate.
Qed.

Lemma strip_prefix_self (p r : str) : strip_prefix p (p ++ r) = Some r.
Proof. apply strip_prefix_app. reflexivity. Qed.

(** ** The loop over the target list *)

Lemma dict_set_keys (k v : str) (d : dict) :
  map fst (dict_set k v d) = add_key (map fst d) k.
Proof.
  unfold add_key. induction d as [|[k' v'] d IH]; simpl; [reflexivity|].
  destruct (str_eqb k k') eqn:E; simpl.
  - apply str_eqb_eq in E. subst k'. reflexivity.
  - rewrite IH. destruct (existsb (str_eqb k) (map fst d)); reflexivity.
Qed.

Lemma dict_set_length_keys (k v v' : str) (d d' : dict) :
  map fst d = map fst d' ->
  map fst (dict_set k v d) = map fst (dict_set k v' d').
Proof. intros H. rewrite !dict_set_keys, H. reflexivity. Qed.

Section Loop.
Variable rnd : nat -> N.
Variable content : str.

Lemma loop_printed (files : list str) (st : loop_state) :
  printed (fold_left (loop_step rnd content) files st)
  = printed st
    ++ map already_exists_line (filter (present content) files).
Proof.
  revert st. induction files as [|p files IH]; intros st; simpl.
  - rewrite app_nil_r. reflexivity.
  - rewrite IH. unfold loop_step, present.
    destruct (contains p content); simpl.
    + rewrite <- app_assoc. reflexivity.
    + reflexivity.
Qed.

Lemma loop_drawn (files : list str) (st : loop_state) :
  drawn (fold_left (loop_step rnd content) files st)
  = drawn st + 2 * length (filter (absent content) files).
Proof.
  revert st. induction files as [|p files IH]; intros st; simpl.
  - lia.
  - rewrite IH. unfold loop_step, absent.
    destruct (contains p content); simpl; lia.
Qed.

Lemma loop_file_refs_keys (files : list str) (st : loop_state) :
  map fst (file_refs (fold_left (loop_step rnd content) files st))
  = fold_left add_key (filter (absent content) files)
              (map fst (file_refs st)).
Proof.
  revert st. induction files as [|p files IH]; intros st; simpl.
  - reflexivity.
  - rewrite IH. unfold loop_step, absent.
    destruct (contains p content); simpl; [reflexivity|].
    rewrite dict_set_keys. reflexivity.
Qed.

Lemma loop_same_keys (files : list str) (st : loop_state) :
  map fst (file_refs st) = map fst (build_files st) ->
  map fst (file_refs (fold_left (loop_step rnd content) files st))
  = map fst (build_files (fold_left (loop_step rnd content) files st)).
Proof.
  revert st. induction files as [|p files IH]; intros st H; simpl.
  - exact H.
  - apply IH. unfold loop_step.
    destruct (contains p content); simpl; [exact H|].
    apply dict_set_length_keys. exact H.
Qed.

Lemma collect_printed (files : list str) :
  printed (collect files rnd content)
  = map already_exists_line (filter (present content) files).
Proof. unfold collect. rewrite loop_printed. reflexivity. Qed.

Lemma collect_drawn (files : list str) :
  drawn (collect files rnd content)
  = 2 * length (filter (absent content) files).
Proof. unfold collect. rewrite loop_drawn. reflexivity. Qed.

Lemma collect_keys (files : list str) :
  map fst (file_refs (collect files rnd content))
  = keys_of (filter (absent content) files).
Proof. unfold collect. rewrite loop_file_refs_keys. reflexivity. Qed.

Lemma collect_same_keys (files : list str) :
  map fst (file_refs (collect files rnd content))
  = map fst (build_files (collect files rnd content)).
Proof. unfold collect. apply loop_same_keys. reflexivity. Qed.
End Loop.




Lemma fold_add_key_nil (paths ks : list str) :
  fold_left add_key paths ks = [] -> ks = [] /\ paths = [].
Proof.
  revert ks. induction paths as [|p paths IH]; intros ks H; simpl in *.
  - auto.
  - apply IH in H. destruct H as [H _]. unfold add_key in H.
    destruct (existsb (str_eqb p) ks) eqn:E.
    + subst ks. discriminate.
    + destruct ks; discriminate.
Qed.

Lemma keys_of_nil (paths : list str) : keys_of paths = [] <-> paths = [].
Proof.
  split.
  - intros H. apply fold_add_key_nil in H. tauto.
  - intros ->. reflexivity.
Qed.

Lemma fold_add_key_nodup (paths ks : list str) :
  NoDup (ks ++ paths) -> fold_left add_key paths ks = ks ++ paths.
Proof.
  revert ks. induction paths as [|p paths IH]; intros ks H; simpl.
  - rewrite app_nil_r. reflexivity.
  - assert (E : add_key ks p = ks ++ [p]).
    { unfold add_key. destruct (existsb (str_eqb p) ks) eqn:E; [|reflexivity].
      apply existsb_exists in E. destruct E as [y [Hy E]].
      apply str_eqb_eq in E. subst y.
      apply NoDup_remove_2 in H. exfalso. apply H.
      apply in_or_app. left. exact Hy. }
    rewrite E, IH; rewrite <- app_assoc; simpl; [reflexivity | exact H].
Qed.

Lemma keys_of_nodup (paths : list str) : NoDup paths -> keys_of paths = paths.
Proof. intros H. unfold keys_of. rewrite fold_add_key_nodup; auto. Qed.

Lemma dict_get_none (k : str) (d : dict) :
  dict_get k d = None <-> ~ In k (map fst d).
Proof.
  induction d as [|[k' v] d IH]; simpl.
  - tauto.
  - destruct (str_eqb k k') eqn:E.
    + apply str_eqb_eq in E. subst k'. split; [discriminate|].
      intros H. exfalso. apply H. left. reflexivity.
    + rewrite IH. split.
      * intros H [H1|H1]; [|tauto]. subst k'.
        rewrite str_eqb_refl in E. discriminate.
      * tauto.
Qed.

Lemma map_fst_nil (d : dict) : map fst d = [] -> d = [].
Proof. destruct d; simpl; [reflexivity | discriminate]. Qed.

Lemma filter_all (A : Type) (f : A -> bool) (l : list A) :
  forallb f l = true -> filter f l = l.
Proof.
  induction l as [|x l IH]; simpl; [reflexivity|].
  intros H. apply andb_true_iff in H. destruct H as [H1 H2].
  rewrite H1, IH; auto.
Qed.

Lemma filter_none (A : Type) (f : A -> bool) (l : list A) :
  forallb f l = true -> filter (fun x => negb (f x)) l = [].
Proof.
  induction l as [|x l IH]; simpl; [reflexivity|].
  intros H. apply andb_true_iff in H. destruct H as [H1 H2].
  rewrite H1. simpl. auto.
Qed.


(** ** The gates *)



(** ** Nothing to do *)

(** C8 as stated fails: a manifest can hold every target path and still
    stop at the first gate, in which case the run prints the gate's error
    and not the nothing-to-do line. *)
Lemma nothing_to_do_needs_gates :
  forallb (present (universal_newlines paths_only)) files_to_add = true /\
  console (add_files_to_xcode_project sample_rnd (Some paths_only))
  = [txt "Error: Could not find main group"].
Proof. vm_compute. split; reflexivity. Qed.

(** C8, amended: when the project file exists, both gates pass and every
    target path occurs in the text, no identifier is drawn, the to-add
    dict is empty, the run prints one already-exists line per path and
    then the nothing-to-do line, and it ends without writing the file. *)
Theorem nothing_to_do (files : list str) (rnd : nat -> N) (bytes : str) :
  search main_group_re (universal_newlines bytes) <> None ->
  search sources_phase_re (universal_newlines bytes) <> None ->
  forallb (present (universal_newlines bytes)) files = true ->
  file_refs (collect files rnd (universal_newlines bytes)) = [] /\
  drawn (collect files rnd (universal_newlines bytes)) = 0 /\
  add_files files rnd (Some bytes)
  = mkResult NoWrite
      (map already_exists_line files
       ++ [txt "All files already exist in project"]) false /\
  disk_after (Some bytes) (add_files files rnd (Some bytes)) = Some bytes.
Proof.
  intros G1 G2 H.
  set (content := universal_newlines bytes) in *.
  assert (Hk : file_refs (collect files rnd content) = []).
  { apply map_fst_nil. rewrite collect_keys.
    unfold absent. rewrite (filter_none _ (present content)); auto. }
  assert (Hr : add_files files rnd (Some bytes)
               = mkResult NoWrite
                   (map already_exists_line files
                    ++ [txt "All files already exist in project"]) false).
  { unfold add_files. fold content.
    destruct (search main_group_re content); [|congruence].
    destruct (search sources_phase_re content); [|congruence].
    unfold run_after_gates. rewrite Hk, collect_printed, filter_all; auto. }
  repeat split.
  - exact Hk.
  - rewrite collect_drawn. unfold absent.
    rewrite (filter_none _ (present content)); auto.
  - exact Hr.
  - rewrite Hr. reflexivity.
Qed.

Lemma nothing_to_do_witness :
  file_refs (collect files_to_add sample_rnd (universal_newlines sample_complete)) = [] /\
  drawn (collect files_to_add sample_rnd (universal_newlines sample_complete)) = 0 /\
  add_files files_to_add sample_rnd (Some sample_complete)
  = mkResult NoWrite
      (map already_exists_line files_to_add
       ++ [txt "All files already exist in project"]) false /\
  disk_after (Some sample_complete)
             (add_files files_to_add sample_rnd (Some sample_complete))
  = Some sample_complete.
Proof.
  apply (nothing_to_do files_to_add sample_rnd sample_complete).
  - vm_compute. discriminate.
  - vm_compute. discriminate.
  - vm_compute. reflexivity.
Defined.

(** ** Skipping the paths that are present *)




(** ** Idempotence *)

(** C1: the records the script writes carry the base name of each file,
    while the presence test looks for the whole path.  On the sample
    manifest the first run adds thirteen files, and a second run on the
    file it wrote finds none of the paths, adds thirteen files again and
    changes the file. *)
Theorem second_run_adds_again :
  let r1 := add_files_to_xcode_project sample_rnd (Some sample_project) in
  let d1 := disk_after (Some sample_project) r1 in
  let r2 := add_files_to_xcode_project later_rnd d1 in
  raised r1 = false /\
  hd [] (console r1) = added_13 /\
  hd [] (console r2) = added_13 /\
  length (console r2) = 14 /\
  disk_eqb (disk_after d1 r2) d1 = false.
Proof. vm_compute. repeat split; reflexivity. Qed.

(** ** Escapes in the replacement text of re.sub *)

(** C9: the text matched in the sources phase is handed to [re.sub] as
    the replacement template.  A backslash followed by a letter that is
    no escape makes [re.sub] raise: on this manifest both gates pass and
    all thirteen paths are absent, yet nothing is written and no
    [Added] line is printed. *)
Theorem bad_escape_stops_the_run :
  let r := add_files_to_xcode_project sample_rnd (Some project_query) in
  matches main_group_re (universal_newlines project_query) = true /\
  matches sources_phase_re (universal_newlines project_query) = true /\
  forallb (absent (universal_newlines project_query)) files_to_add = true /\
  raised r = true /\ effect r = NoWrite /\ console r = [].
Proof. vm_compute. repeat split; reflexivity. Qed.

(** The same defect inside the list: a member whose file name holds a
    backslash and a [t] is rewritten with a tab when two files are
    added, so the entry that was in the list is not in the list any
    more. *)
Theorem escape_rewrites_existing_member :
  let r := add_files_to_xcode_project sample_rnd (Some project_tools) in
  length (file_refs (collect files_to_add sample_rnd
                             (universal_newlines project_tools))) = 2 /\
  contains member_tools (universal_newlines project_tools) = true /\
  exists out,
    written r = Some out /\
    contains member_tools out = false /\
    contains (txt "CCCC /* Gen" ++ [TAB] ++ txt "ools.swift in Sources */,")
             out = true.
Proof.
  split; [vm_compute; reflexivity|]. split; [vm_compute; reflexivity|].
  eexists. split; [vm_compute; reflexivity|].
  split; vm_compute; reflexivity.
Qed.

(** C5: a backslash pair in the phase record, ahead of its files list,
    comes out as one backslash: text outside the file-reference section,
    the build-file section and the files list has changed. *)
Theorem escape_rewrites_phase_head :
  let r := add_files_to_xcode_project sample_rnd (Some project_escaped) in
  let before := txt "note = " ++ [BSLASH; BSLASH] ++ txt "; files = (" in
  let after := txt "note = " ++ [BSLASH] ++ txt "; files = (" in
  contains before (universal_newlines project_escaped) = true /\
  exists out,
    written r = Some out /\
    contains before out = false /\ contains after out = true.
Proof.
  split; [vm_compute; reflexivity|].
  eexists. split; [vm_compute; reflexivity|].
  split; vm_compute; reflexivity.
Qed.

(** ** Failed lookups *)

(** C2 as stated fails: on a manifest where none of the three lookups
    succeeds, all three steps are skipped, the text is written back as it
    was, and the console shows exactly what it shows for the sample
    manifest, where all three succeed. *)
Lemma failed_lookups_are_not_reported :
  let r := add_files_to_xcode_project sample_rnd (Some bare_project) in
  search (section_re FileReference) bare_project = None /\
  search (section_re BuildFile) bare_project = None /\
  search (sources_phase_pattern sample_phase_id) bare_project = None /\
  written r = Some bare_project /\
  console r
  = console (add_files_to_xcode_project sample_rnd (Some sample_project)).
Proof. vm_compute. repeat split; reflexivity. Qed.

(** C2, amended: a step whose lookup fails leaves the text as it is, and
    nothing is printed about it.  Once the gates have passed and a path
    is queued, the console holds the already-exists lines followed by the
    [Added] report, whichever lookups failed, or the already-exists lines
    alone when the run ends in an exception; when all three lookups
    fail, the text is written back as it was under the usual report. *)
Theorem failed_lookup_is_silent (files : list str) (rnd : nat -> N)
  (g sp content : str) :
  file_refs (collect files rnd content) <> [] ->
  let st := collect files rnd content in
  let r := run_after_gates files rnd g sp content in
  (search (section_re FileReference) content = None ->
   add_file_references content (file_refs st) = content) /\
  (forall c, search (section_re BuildFile) c = None ->
   add_build_files c (file_refs st) (build_files st) = Some c) /\
  (forall c, search (sources_phase_pattern sp) c = None ->
   add_to_sources_phase sp c (build_files st) = Some c) /\
  (console r = printed st ++ added_report (file_refs st) \/
   raised r = true /\ console r = printed st) /\
  (search (section_re FileReference) content = None ->
   search (section_re BuildFile) content = None ->
   search (sources_phase_pattern sp) content = None ->
   r = mkResult (Write content)
                (printed st ++ added_report (file_refs st)) false).
Proof.
  intros Hq st r.
  assert (A : search (section_re FileReference) content = None ->
              add_file_references content (file_refs st) = content).
  { intros H. unfold add_file_references. rewrite H. reflexivity. }
  assert (B : forall c, search (section_re BuildFile) c = None ->
              add_build_files c (file_refs st) (build_files st) = Some c).
  { intros c H. unfold add_build_files. rewrite H. reflexivity. }
  assert (C : forall c, search (sources_phase_pattern sp) c = None ->
              add_to_sources_phase sp c (build_files st) = Some c).
  { intros c H. unfold add_to_sources_phase. rewrite H. reflexivity. }
  split; [exact A|]. split; [exact B|]. split; [exact C|].
  subst r. unfold run_after_gates. fold st.
  destruct (file_refs st) as [|kv d] eqn:E; [exfalso; exact (Hq E)|]. split.
  - destruct (add_build_files _ _ _); simpl.
    + destruct (add_to_sources_phase _ _ _); simpl; auto.
    + auto.
  - intros H1 H2 H3. rewrite (A H1), (B _ H2), (C _ H3).
    reflexivity.
Qed.

Lemma failed_lookup_is_silent_witness :
  let st := collect files_to_add sample_rnd bare_project in
  let r := run_after_gates files_to_add sample_rnd sample_id
                           sample_phase_id bare_project in
  (search (section_re FileReference) bare_project = None ->
   add_file_references bare_project (file_refs st) = bare_project) /\
  (forall c, search (section_re BuildFile) c = None ->
   add_build_files c (file_refs st) (build_files st) = Some c) /\
  (forall c, search (sources_phase_pattern sample_phase_id) c = None ->
   add_to_sources_phase sample_phase_id c (build_files st) = Some c) /\
  (console r = printed st ++ added_report (file_refs st) \/
   raised r = true /\ console r = printed st) /\
  (search (section_re FileReference) bare_project = None ->
   search (section_re BuildFile) bare_project = None ->
   search (sources_phase_pattern sample_phase_id) bare_project = None ->
   r = mkResult (Write bare_project)
                (printed st ++ added_report (file_refs st)) false).
Proof.
  apply (failed_lookup_is_silent files_to_add sample_rnd sample_id
                                 sample_phase_id bare_project).
  vm_compute. discriminate.
Defined.

(** ** The main-group identifier *)




(** ** Occurrences *)

Lemma startswith_true (p s : str) :
  startswith p s = true <-> exists r, s = p ++ r.
Proof.
  unfold startswith. destruct (strip_prefix p s) as [r|] eqn:E.
  - apply strip_prefix_app in E. split; [eauto | reflexivity].
  - split; [discriminate|]. intros [r H].
    apply strip_prefix_app in H. congruence.
Qed.

Lemma contains_eq (t s : str) :
  contains t s
  = startswith t s || match s with [] => false | _ :: s' => contains t s' end.
Proof. destruct s; reflexivity. Qed.

Lemma contains_Sub (t s : str) : contains t s = true <-> Sub t s.
Proof.
  unfold Sub. split.
  - induction s as [|c s IH]; rewrite contains_eq; intros H;
      apply orb_true_iff in H; destruct H as [H|H]; try discriminate.
    + apply startswith_true in H. destruct H as [r H]. exists [], r. exact H.
    + apply startswith_true in H. destruct H as [r H]. exists [], r. exact H.
    + destruct (IH H) as [a [b E]]. exists (c :: a), b. rewrite E. reflexivity.
  - intros [a [b E]]. subst s. induction a as [|c a IH]; rewrite contains_eq.
    + apply orb_true_iff. left. apply startswith_true. exists b. reflexivity.
    + apply orb_true_iff. right. exact IH.
Qed.

Lemma Sub_refl (s : str) : Sub s s.
Proof. exists [], []. rewrite app_nil_r. reflexivity. Qed.

Lemma Sub_trans (t u s : str) : Sub t u -> Sub u s -> Sub t s.
Proof.
  intros [a [b E1]] [a' [b' E2]]. subst. exists (a' ++ a), (b ++ b').
  rewrite <- !app_assoc. reflexivity.
Qed.


Lemma Sub_app_r (t s b : str) : Sub t s -> Sub t (s ++ b).
Proof.
  intros [x [y E]]. subst. exists x, (y ++ b). rewrite <- !app_assoc.
  reflexivity.
Qed.



(** ** The matcher *)

Lemma push_piece_some (x : str) (m : option (list str * str))
  (ps : list str) (r : str) :
  push_piece x m = Some (ps, r) ->
  exists ps', m = Some (ps', r) /\ ps = x :: ps'.
Proof.
  destruct m as [[ps' r']|]; simpl; [|discriminate].
  intros H. injection H as <- <-. eauto.
Qed.

Lemma grow_piece_some (c : ascii) (m : option (list str * str))
  (ps : list str) (r : str) :
  grow_piece c m = Some (ps, r) ->
  exists x ps', m = Some (x :: ps', r) /\ ps = (c :: x) :: ps'.
Proof.
  destruct m as [[[|x ps'] r']|]; simpl; try discriminate.
  intros H. injection H as <- <-. eauto.
Qed.

Lemma match_here_starG_eq (p : ascii -> bool) (re : list item) (s : str) :
  match_here (StarG p :: re) s
  = match s with
    | c :: s' =>
        if p c then
          match match_here (StarG p :: re) s' with
          | Some m => grow_piece c (Some m)
          | None => push_piece [] (match_here re s)
          end
        else push_piece [] (match_here re s)
    | [] => push_piece [] (match_here re s)
    end.
Proof. destruct s; reflexivity. Qed.

Lemma match_here_starL_eq (p : ascii -> bool) (re : list item) (s : str) :
  match_here (StarL p :: re) s
  = match match_here re s with
    | Some m => push_piece [] (Some m)
    | None =>
        match s with
        | c :: s' => if p c then grow_piece c (match_here (StarL p :: re) s')
                     else None
        | [] => None
        end
    end.
Proof. destruct s; reflexivity. Qed.


(** Inversion of a match, item by item. *)
Lemma match_lit_inv (l : str) (re : list item) (s : str)
  (ps : list str) (r : str) :
  match_here (Lit l :: re) s = Some (ps, r) ->
  exists s0 ps', s = l ++ s0 /\ ps = l :: ps' /\
                 match_here re s0 = Some (ps', r).
Proof.
  simpl. destruct (strip_prefix l s) as [s0|] eqn:E; [|discriminate].
  intros H. apply push_piece_some in H. destruct H as [ps' [H ->]].
  apply strip_prefix_app in E. eauto.
Qed.


Lemma match_starG_inv (p : ascii -> bool) (re : list item) (s : str)
  (ps : list str) (r : str) :
  match_here (StarG p :: re) s = Some (ps, r) ->
  exists x s0 ps', s = x ++ s0 /\ ps = x :: ps' /\ forallb p x = true /\
                   match_here re s0 = Some (ps', r).
Proof.
  revert ps r. induction s as [|c s IH]; intros ps r H;
    rewrite match_here_starG_eq in H.
  - apply push_piece_some in H. destruct H as [ps' [H ->]].
    exists [], [], ps'. auto.
  - destruct (p c) eqn:E.
    + destruct (match_here (StarG p :: re) s) as [m|] eqn:M.
      * apply grow_piece_some in H. destruct H as [x [ps' [H ->]]].
        injection H as ->.
        destruct (IH _ _ eq_refl) as [x' [s0 [ps'' [-> [Q [F H]]]]]].
        injection Q as <- <-. exists (c :: x), s0, ps'.
        simpl. rewrite E, F. auto.
      * apply push_piece_some in H. destruct H as [ps' [H ->]].
        exists [], (c :: s), ps'. auto.
    + apply push_piece_some in H. destruct H as [ps' [H ->]].
      exists [], (c :: s), ps'. auto.
Qed.

Lemma match_starL_inv (p : ascii -> bool) (re : list item) (s : str)
  (ps : list str) (r : str) :
  match_here (StarL p :: re) s = Some (ps, r) ->
  exists x s0 ps', s = x ++ s0 /\ ps = x :: ps' /\ forallb p x = true /\
                   match_here re s0 = Some (ps', r).
Proof.
  revert ps r. induction s as [|c s IH]; intros ps r H;
    rewrite match_here_starL_eq in H.
  - destruct (match_here re []) as [m|] eqn:M; [|discriminate].
    apply push_piece_some in H. destruct H as [ps' [H ->]].
    injection H as ->. exists [], [], ps'. auto.
  - destruct (match_here re (c :: s)) as [m|] eqn:M.
    + apply push_piece_some in H. destruct H as [ps' [H ->]].
      injection H as ->. exists [], (c :: s), ps'. auto.
    + destruct (p c) eqn:E; [|discriminate].
      apply grow_piece_some in H. destruct H as [x [ps' [H ->]]].
      destruct (IH _ _ H) as [x' [s0 [ps'' [-> [Q [F H']]]]]].
      injection Q as <- <-. exists (c :: x), s0, ps'.
      simpl. rewrite E, F. auto.
Qed.

Lemma match_last_star_total (p : ascii -> bool) (s : str) :
  exists x r, match_here [StarG p] s = Some ([x], r).
Proof.
  induction s as [|c s IH]; rewrite match_here_starG_eq.
  - simpl. eauto.
  - destruct IH as [x [r IH]]. rewrite IH.
    destruct (p c); simpl; eauto.
Qed.

(** A greedy star at the end of a pattern stops at the end of the text
    or in front of a character outside its class. *)
Lemma match_last_star_stop (p : ascii -> bool) (s : str)
  (ps : list str) (r : str) :
  match_here [StarG p] s = Some (ps, r) ->
  r = [] \/ exists c r', r = c :: r' /\ p c = false.
Proof.
  revert ps r. induction s as [|c s IH]; intros ps r H;
    rewrite match_here_starG_eq in H.
  - simpl in H. injection H as <- <-. auto.
  - destruct (p c) eqn:E.
    + destruct (match_last_star_total p s) as [x [r0 M]]. rewrite M in H.
      simpl in H. injection H as <- <-. eapply IH. exact M.
    + simpl in H. injection H as <- <-. right. eauto.
Qed.

Lemma search_eq (re : list item) (s : str) :
  search re s
  = match match_here re s with
    | Some (ps, r) => Some (mkMatch [] ps r)
    | None =>
        match s with
        | [] => None
        | c :: s' =>
            match search re s' with
            | Some m =>
                Some (mkMatch (c :: m_before m) (m_pieces m) (m_after m))
            | None => None
            end
        end
    end.
Proof. destruct s; reflexivity. Qed.

(** A match found by [search] is a match of the pattern at the place it
    names, and the pattern matches nowhere to the left of it. *)
Lemma search_sound (re : list item) (s : str) (m : rmatch) :
  search re s = Some m ->
  match_here re (skipn (length (m_before m)) s)
  = Some (m_pieces m, m_after m) /\
  firstn (length (m_before m)) s = m_before m.
Proof.
  revert m. induction s as [|c s IH]; intros m H; rewrite search_eq in H.
  - destruct (match_here re []) as [[ps r]|] eqn:M; [|discriminate].
    injection H as <-. simpl. auto.
  - destruct (match_here re (c :: s)) as [[ps r]|] eqn:M.
    + injection H as <-. simpl. auto.
    + destruct (search re s) as [m'|] eqn:S'; [|discriminate].
      injection H as <-. simpl. destruct (IH _ eq_refl) as [H1 H2].
      rewrite H1, H2. auto.
Qed.

Lemma section_search (name s : str) (m : rmatch) :
  search (section_re name) s = Some m ->
  exists body,
    m_pieces m = [begin_marker name; body; end_marker name] /\
    s = m_before m ++ (begin_marker name ++ body ++ end_marker name)
        ++ m_after m.
Proof.
  intros H. apply search_sound in H. destruct H as [H1 H2].
  unfold section_re in H1.
  apply match_lit_inv in H1. destruct H1 as [s0 [ps0 [E0 [P0 H1]]]].
  apply match_starL_inv in H1. destruct H1 as [x [s1 [ps1 [E1 [P1 [_ H1]]]]]].
  apply match_lit_inv in H1. destruct H1 as [s2 [ps2 [E2 [P2 H1]]]].
  simpl in H1. injection H1 as <- <-. subst.
  exists x. split; [exact P0|].
  rewrite <- (firstn_skipn (length (m_before m)) s) at 1.
  rewrite H2, E0, <- !app_assoc. reflexivity.
Qed.

Lemma phase_search (sp s : str) (m : rmatch) :
  search (sources_phase_pattern sp) s = Some m ->
  s = m_before m ++ group0 m ++ m_after m /\
  group_span 0 5 m = group0 m /\
  (m_after m = [] \/ exists r, m_after m = ")"%char :: r).
Proof.
  intros H. apply search_sound in H. destruct H as [H1 H2].
  unfold sources_phase_pattern in H1.
  apply match_lit_inv in H1. destruct H1 as [s0 [ps0 [E0 [P0 H1]]]].
  apply match_lit_inv in H1. destruct H1 as [s1 [ps1 [E1 [P1 H1]]]].
  apply match_starG_inv in H1. destruct H1 as [x [s2 [ps2 [E2 [P2 [_ H1]]]]]].
  apply match_lit_inv in H1. destruct H1 as [s3 [ps3 [E3 [P3 H1]]]].
  pose proof (match_last_star_stop _ _ _ _ H1) as Stop.
  apply match_starG_inv in H1. destruct H1 as [y [s4 [ps4 [E4 [P4 [_ H1]]]]]].
  simpl in H1. injection H1 as Hps Haft. subst.
  unfold group_span, group0. rewrite P0. split; [|split].
  - rewrite <- (firstn_skipn (length (m_before m)) s) at 1.
    rewrite H2, E0. cbn [concat]. rewrite app_nil_r, <- !app_assoc.
    reflexivity.
  - reflexivity.
  - destruct Stop as [St|[c [r [St Hc]]]]; [left; exact St|].
    right. exists r. rewrite St. unfold not_rparen in Hc.
    apply negb_false_iff in Hc. apply eqc_eq in Hc. subst c. reflexivity.
Qed.

(** ** The appended blocks *)

Lemma fold_append (A : Type) (f : A -> str) (l : list A) (init : str) :
  fold_left (fun acc x => acc ++ f x) l init = init ++ concat (map f l).
Proof.
  revert init. induction l as [|x l IH]; intros init; simpl.
  - rewrite app_nil_r. reflexivity.
  - rewrite IH, <- app_assoc. reflexivity.
Qed.

Lemma file_ref_block_eq (frefs : dict) (init : str) :
  file_ref_block frefs init = init ++ concat (file_ref_entries frefs).
Proof. apply fold_append. Qed.

Lemma sources_block_eq (bfiles : dict) (init : str) :
  sources_block bfiles init = init ++ concat (sources_entries bfiles).
Proof. apply fold_append. Qed.

(** No [KeyError]: every key of [build_files] is a key of [file_refs]. *)
Lemma build_file_block_eq (frefs bfiles : dict) (init : str) :
  (forall k, In k (map fst bfiles) -> In k (map fst frefs)) ->
  build_file_block frefs bfiles init
  = Some (init ++ concat (build_file_entries frefs bfiles)).
Proof.
  revert init. induction bfiles as [|[k b] bfiles IH]; intros init H; simpl.
  - rewrite app_nil_r. reflexivity.
  - unfold ref_of at 1. simpl.
    destruct (dict_get k frefs) as [r|] eqn:E.
    + rewrite IH, <- app_assoc; [reflexivity|].
      intros k' Hk. apply H. right. exact Hk.
    + exfalso. apply dict_get_none in E. apply E, H. left. reflexivity.
Qed.

Lemma dict_get_in (k v : str) (d : dict) : dict_get k d = Some v -> In (k, v) d.
Proof.
  induction d as [|[k' v'] d IH]; simpl; [discriminate|].
  destruct (str_eqb k k') eqn:E.
  - apply str_eqb_eq in E. subst k'. intros H. injection H as ->. auto.
  - auto.
Qed.

(** ** str.replace as insertion *)





Lemma ins_before_refl (E X s : str) : ins_before E X s s.
Proof. induction s; constructor; auto. Qed.

Lemma ins_before_app (E X p s t : str) :
  ins_before E X s t -> ins_before E X (p ++ s) (p ++ t).
Proof. intros H. induction p; simpl; [exact H | constructor; auto]. Qed.

(** Replacing [g ++ E] by [g ++ X ++ E] only puts copies of [X] in front
    of occurrences of [E]. *)
Lemma replace_go_ins (g E X : str) (fuel : nat) (s : str) :
  E <> [] ->
  ins_before E X s (replace_go fuel (g ++ E) (g ++ X ++ E) s).
Proof.
  intros HE. revert s. induction fuel as [|f IH]; intros s; simpl.
  - apply ins_before_refl.
  - destruct (strip_prefix (g ++ E) s) as [r|] eqn:H.
    + apply strip_prefix_app in H. subst s. rewrite <- !app_assoc.
      apply ins_before_app. destruct E as [|e E']; [congruence|].
      simpl. apply ib_ins.
      * apply startswith_true. exists r. reflexivity.
      * apply ins_before_app. apply IH.
    + destruct s as [|c s]; constructor. apply IH.
Qed.

Lemma str_replace_ins (g E X s : str) :
  E <> [] ->
  ins_before E X s (str_replace s (g ++ E) (g ++ X ++ E)).
Proof.
  intros HE. unfold str_replace.
  destruct (g ++ E) as [|c l] eqn:H.
  - apply app_eq_nil in H. tauto.
  - rewrite <- H. apply replace_go_ins. exact HE.
Qed.





(** ** re.sub with a template free of backslashes *)

Lemma parse_template_plain (groups fuel : nat) (s : str) :
  forallb not_bslash s = true -> length s < fuel ->
  parse_template fuel groups s = Some (map Text s).
Proof.
  revert s. induction fuel as [|f IH]; intros s H Hf; [lia|].
  destruct s as [|c s]; [reflexivity|].
  simpl in H. apply andb_true_iff in H. destruct H as [H1 H2].
  simpl. unfold not_bslash in H1. rewrite H1.
  rewrite IH; [reflexivity | exact H2 | simpl in Hf; lia].
Qed.

Lemma expand_template_text (s : str) (gs : list str) :
  expand_template (map Text s) gs = s.
Proof.
  unfold expand_template. induction s as [|c s IH]; simpl; congruence.
Qed.

Lemma search_none_inv (re : list item) (c : ascii) (s : str) :
  search re (c :: s) = None ->
  match_here re (c :: s) = None /\ search re s = None.
Proof.
  rewrite search_eq. destruct (match_here re (c :: s)) as [[ps r]|];
    [discriminate|].
  destruct (search re s); [discriminate | auto].
Qed.

Lemma sub_go_none (re : list item) (repl : list str -> str)
  (fuel : nat) (s : str) :
  search re s = None -> sub_go fuel re repl s = s.
Proof.
  revert s. induction fuel as [|f IH]; intros s H; [reflexivity|].
  destruct s as [|c s]; simpl.
  - rewrite search_eq in H. destruct (match_here re []) as [[ps r]|];
      [discriminate | reflexivity].
  - apply search_none_inv in H. destruct H as [H1 H2].
    rewrite H1, IH; auto.
Qed.

Lemma sub_go_first (re : list item) (repl : list str -> str)
  (s : str) (m : rmatch) (fuel : nat) :
  search re s = Some m -> group0 m <> [] -> length s < fuel ->
  exists fuel',
    sub_go fuel re repl s
    = m_before m ++ repl (m_pieces m) ++ sub_go fuel' re repl (m_after m).
Proof.
  revert m fuel. induction s as [|c s IH]; intros m fuel H Hn Hf;
    rewrite search_eq in H; (destruct fuel as [|f]; [lia|]).
  - destruct (match_here re []) as [[ps r]|] eqn:M; [|discriminate].
    injection H as <-. unfold group0 in Hn. simpl in *. rewrite M.
    destruct (concat ps); [congruence|]. exists f. reflexivity.
  - destruct (match_here re (c :: s)) as [[ps r]|] eqn:M.
    + injection H as <-. unfold group0 in Hn. simpl in Hn.
      simpl. rewrite M. destruct (concat ps); [congruence|].
      exists f. reflexivity.
    + destruct (search re s) as [m'|] eqn:S'; [|discriminate].
      injection H as <-. simpl in Hn |- *. rewrite M.
      destruct (IH m' f eq_refl Hn) as [f' E]; [simpl in Hf; lia|].
      exists f'. rewrite E. reflexivity.
Qed.

(** With a single match and a template free of backslashes, [re.sub]
    puts the template in the place of the match. *)
Lemma re_sub_once (re : list item) (groups : nat)
  (groups_of : list str -> list str) (repl s : str) (m : rmatch) :
  search re s = Some m -> group0 m <> [] ->
  search re (m_after m) = None ->
  forallb not_bslash repl = true ->
  re_sub re groups groups_of repl s
  = Some (m_before m ++ repl ++ m_after m).
Proof.
  intros H Hn H1 Hb. unfold re_sub.
  rewrite parse_template_plain; [|exact Hb|lia].
  destruct (sub_go_first re
              (fun ps => expand_template (map Text repl) (groups_of ps))
              s m (S (length s)) H Hn) as [f E]; [lia|].
  rewrite E, expand_template_text, sub_go_none; auto.
Qed.

Lemma phase_search_nonempty (sp s : str) (m : rmatch) :
  search (sources_phase_pattern sp) s = Some m -> group0 m <> [].
Proof.
  intros H. apply search_sound in H. destruct H as [H _].
  unfold sources_phase_pattern in H.
  apply match_lit_inv in H. destruct H as [s0 [ps0 [_ [P0 H]]]].
  apply match_lit_inv in H. destruct H as [s1 [ps1 [_ [P1 _]]]].
  unfold group0. rewrite P0, P1. cbn [concat]. intros E.
  apply app_eq_nil in E. destruct E as [_ E]. discriminate.
Qed.

(** ** Characters of the generated text *)

Lemma forallb_replace_go (P : ascii -> bool) (old new : str)
  (fuel : nat) (s : str) :
  forallb P new = true -> forallb P s = true ->
  forallb P (replace_go fuel old new s) = true.
Proof.
  intros Hn. revert s. induction fuel as [|f IH]; intros s Hs; simpl; auto.
  destruct (strip_prefix old s) as [r|] eqn:E.
  - apply strip_prefix_app in E. subst s. rewrite forallb_app in Hs.
    apply andb_true_iff in Hs. rewrite forallb_app, Hn. simpl.
    apply IH. tauto.
  - destruct s as [|c s]; [reflexivity|]. simpl in *.
    apply andb_true_iff in Hs. destruct Hs as [-> Hs]. simpl. auto.
Qed.

Lemma forallb_str_replace (P : ascii -> bool) (s old new : str) :
  old <> [] -> forallb P new = true -> forallb P s = true ->
  forallb P (str_replace s old new) = true.
Proof.
  intros Ho Hn Hs. unfold str_replace. destruct old; [congruence|].
  apply forallb_replace_go; auto.
Qed.

Lemma forallb_Sub (P : ascii -> bool) (t s : str) :
  Sub t s -> forallb P s = true -> forallb P t = true.
Proof.
  intros [a [b ->]] H. rewrite !forallb_app in H.
  apply andb_true_iff in H. destruct H as [_ H].
  apply andb_true_iff in H. tauto.
Qed.

Lemma forallb_concat (P : ascii -> bool) (l : list str) :
  (forall x, In x l -> forallb P x = true) -> forallb P (concat l) = true.
Proof.
  induction l as [|x l IH]; intros H; simpl; [reflexivity|].
  rewrite forallb_app. apply andb_true_iff. split.
  - apply H. left. reflexivity.
  - apply IH. intros y Hy. apply H. right. exact Hy.
Qed.

Lemma plain_not_bslash (s : str) :
  forallb plain s = true -> forallb not_bslash s = true.
Proof.
  induction s as [|c s IH]; simpl; [reflexivity|]. unfold plain at 1.
  intros H. apply andb_true_iff in H. destruct H as [H1 H2].
  apply andb_true_iff in H1. destruct H1 as [-> _]. simpl. auto.
Qed.


Lemma hex_digit_upper_is_hex (x : N) :
  is_hex (hex_digit_upper (N.land x 15)) = true.
Proof.
  change 15%N with (N.ones 4). rewrite N.land_ones.
  assert (H : (x mod 2 ^ 4 < 16)%N) by (apply N.mod_upper_bound; discriminate).
  destruct (x mod 2 ^ 4)%N as [|p]; [reflexivity|].
  do 4 (try destruct p as [p|p|]); try reflexivity; exfalso; lia.
Qed.

Lemma hex_upper_from_is_hex (k : nat) (pos v : N) :
  forallb is_hex (hex_upper_from k pos v) = true /\
  length (hex_upper_from k pos v) = k.
Proof.
  revert pos. induction k as [|k IH]; intros pos; simpl; [auto|].
  rewrite hex_digit_upper_is_hex. destruct (IH (pos - 1)%N) as [-> ->]. auto.
Qed.

(** An identifier is twenty-four upper-case hexadecimal digits. *)
Lemma generate_uuid_is_hex (r : N) :
  forallb is_hex (generate_uuid r) = true /\ length (generate_uuid r) = 24.
Proof. apply hex_upper_from_is_hex. Qed.

Lemma is_hex_plain (c : ascii) : is_hex c = true -> plain c = true.
Proof.
  unfold is_hex. intros H. apply existsb_exists in H.
  destruct H as [d [Hd E]]. apply eqc_eq in E. subst d.
  simpl in Hd. repeat (destruct Hd as [<-|Hd]; [reflexivity|]). contradiction.
Qed.

Lemma generate_uuid_plain (r : N) : forallb plain (generate_uuid r) = true.
Proof.
  destruct (generate_uuid_is_hex r) as [H _]. revert H.
  induction (generate_uuid r) as [|c s IH]; simpl; [reflexivity|].
  intros H. apply andb_true_iff in H. destruct H as [H1 H2].
  rewrite (is_hex_plain c H1). simpl. auto.
Qed.

Lemma basename_eq (c : ascii) (p : str) :
  basename (c :: p)
  = if contains (txt "/") p then basename p
    else if eqc c "/"%char then p else c :: p.
Proof. reflexivity. Qed.

Lemma basename_suffix (p : str) : exists a, p = a ++ basename p.
Proof.
  induction p as [|c p [a IH]].
  - exists []. reflexivity.
  - rewrite basename_eq. destruct (contains (txt "/") p).
    + exists (c :: a). rewrite <- app_comm_cons, <- IH. reflexivity.
    + destruct (eqc c "/"%char).
      * exists [c]. reflexivity.
      * exists []. reflexivity.
Qed.

Lemma basename_forallb (P : ascii -> bool) (p : str) :
  forallb P p = true -> forallb P (basename p) = true.
Proof.
  intros H. destruct (basename_suffix p) as [a E]. rewrite E in H.
  rewrite forallb_app in H. apply andb_true_iff in H. tauto.
Qed.

Lemma dict_set_in (k v k' v' : str) (d : dict) :
  In (k', v') (dict_set k v d) -> (k', v') = (k, v) \/ In (k', v') d.
Proof.
  induction d as [|[k0 v0] d IH]; simpl.
  - intros [H|[]]. auto.
  - destruct (str_eqb k k0); simpl; intros [H|H]; auto.
    destruct (IH H); auto.
Qed.

(** Every value of the two dicts is a generated identifier, and every
    key is a target path. *)
Lemma loop_values (rnd : nat -> N) (content : str) (files : list str)
  (st : loop_state) (Q : str -> str -> Prop) :
  (forall k n, In k files -> Q k (generate_uuid (rnd n))) ->
  (forall k v, In (k, v) (file_refs st) -> Q k v) ->
  (forall k v, In (k, v) (build_files st) -> Q k v) ->
  let st' := fold_left (loop_step rnd content) files st in
  (forall k v, In (k, v) (file_refs st') -> Q k v) /\
  (forall k v, In (k, v) (build_files st') -> Q k v).
Proof.
  revert st. induction files as [|p files IH]; intros st HQ H1 H2; simpl.
  - auto.
  - apply IH.
    + intros k n Hk. apply HQ. right. exact Hk.
    + unfold loop_step. destruct (contains p content); simpl; [exact H1|].
      intros k v H. apply dict_set_in in H. destruct H as [H|H]; [|auto].
      injection H as -> ->. apply HQ. left. reflexivity.
    + unfold loop_step. destruct (contains p content); simpl; [exact H2|].
      intros k v H. apply dict_set_in in H. destruct H as [H|H]; [|auto].
      injection H as -> ->. apply HQ. left. reflexivity.
Qed.

Lemma collect_values (rnd : nat -> N) (content : str) (files : list str)
  (Q : str -> str -> Prop) :
  (forall k n, In k files -> Q k (generate_uuid (rnd n))) ->
  (forall k v, In (k, v) (file_refs (collect files rnd content)) -> Q k v) /\
  (forall k v, In (k, v) (build_files (collect files rnd content)) -> Q k v).
Proof.
  intros HQ. unfold collect. apply loop_values; simpl; auto; tauto.
Qed.

Lemma txt_app_forallb (P : ascii -> bool) (a b : str) :
  forallb P a = true -> forallb P b = true -> forallb P (a ++ b) = true.
Proof. intros Ha Hb. rewrite forallb_app, Ha, Hb. reflexivity. Qed.

Lemma file_ref_entry_plain (r n : str) :
  forallb plain r = true -> forallb plain n = true ->
  forallb plain (file_ref_entry r n) = true.
Proof.
  intros Hr Hn. unfold file_ref_entry.
  repeat (apply txt_app_forallb; [first [exact Hr | exact Hn | reflexivity]|]).
  reflexivity.
Qed.

Lemma build_file_entry_plain (b r n : str) :
  forallb plain b = true -> forallb plain r = true ->
  forallb plain n = true ->
  forallb plain (build_file_entry b r n) = true.
Proof.
  intros Hb Hr Hn. unfold build_file_entry.
  repeat (apply txt_app_forallb;
          [first [exact Hb | exact Hr | exact Hn | reflexivity]|]).
  reflexivity.
Qed.

Lemma sources_entry_plain (b n : str) :
  forallb plain b = true -> forallb plain n = true ->
  forallb plain (sources_entry b n) = true.
Proof.
  intros Hb Hn. unfold sources_entry.
  repeat (apply txt_app_forallb; [first [exact Hb | exact Hn | reflexivity]|]).
  reflexivity.
Qed.

(** ** The three steps, one by one *)

Lemma end_marker_nonempty (name : str) : end_marker name <> [].
Proof. unfold end_marker. simpl. discriminate. Qed.

Lemma add_file_references_spec (content : str) (frefs : dict) :
  search (section_re FileReference) content <> None ->
  exists g,
    Sub (g ++ end_marker FileReference) content /\
    add_file_references content frefs
    = str_replace content (g ++ end_marker FileReference)
        (g ++ concat (file_ref_entries frefs) ++ end_marker FileReference).
Proof.
  intros H. unfold add_file_references.
  destruct (search (section_re FileReference) content) as [m|] eqn:S1;
    [|congruence].
  destruct (section_search _ _ _ S1) as [body [P E]].
  exists (begin_marker FileReference ++ body). split.
  - exists (m_before m), (m_after m). rewrite E at 1.
    rewrite <- !app_assoc. reflexivity.
  - unfold group0, group_span. rewrite P, file_ref_block_eq.
    cbn [concat skipn firstn]. rewrite !app_nil_r, <- !app_assoc.
    reflexivity.
Qed.

Lemma add_build_files_spec (content : str) (frefs bfiles : dict) :
  search (section_re BuildFile) content <> None ->
  (forall k, In k (map fst bfiles) -> In k (map fst frefs)) ->
  exists g,
    Sub (g ++ end_marker BuildFile) content /\
    add_build_files content frefs bfiles
    = Some (str_replace content (g ++ end_marker BuildFile)
              (g ++ concat (build_file_entries frefs bfiles)
                 ++ end_marker BuildFile)).
Proof.
  intros H K. unfold add_build_files.
  destruct (search (section_re BuildFile) content) as [m|] eqn:S1;
    [|congruence].
  destruct (section_search _ _ _ S1) as [body [P E]].
  exists (begin_marker BuildFile ++ body). split.
  - exists (m_before m), (m_after m). rewrite E at 1.
    rewrite <- !app_assoc. reflexivity.
  - rewrite (build_file_block_eq _ _ _ K).
    unfold group0, group_span. rewrite P.
    cbn [concat skipn firstn]. rewrite !app_nil_r, <- !app_assoc.
    reflexivity.
Qed.

Lemma add_to_sources_phase_spec (sp content : str) (bfiles : dict)
  (m : rmatch) :
  search (sources_phase_pattern sp) content = Some m ->
  search (sources_phase_pattern sp) (m_after m) = None ->
  forallb not_bslash content = true ->
  forallb not_bslash (concat (sources_entries bfiles)) = true ->
  content = m_before m ++ group0 m ++ m_after m /\
  (m_after m = [] \/ exists r, m_after m = ")"%char :: r) /\
  add_to_sources_phase sp content bfiles
  = Some (m_before m ++ (group0 m ++ concat (sources_entries bfiles))
            ++ m_after m).
Proof.
  intros S1 S2 Hc He. unfold add_to_sources_phase. rewrite S1.
  destruct (phase_search _ _ _ S1) as [E [G St]].
  split; [exact E|]. split; [exact St|].
  rewrite G, sources_block_eq.
  apply re_sub_once; auto.
  - eapply phase_search_nonempty. exact S1.
  - apply txt_app_forallb; [|exact He].
    apply (forallb_Sub not_bslash (group0 m) content); [|exact Hc].
    exists (m_before m), (m_after m). exact E.
Qed.




Lemma keys_of_NoDup_from (paths ks : list str) :
  NoDup ks -> NoDup (fold_left add_key paths ks).
Proof.
  revert ks. induction paths as [|p paths IH]; intros ks H; simpl; auto.
  apply IH. unfold add_key. destruct (existsb (str_eqb p) ks) eqn:E; auto.
  apply NoDup_app; auto.
  - constructor; [simpl; tauto | constructor].
  - intros x Hx [Hp|[]]. subst x.
    assert (existsb (str_eqb p) ks = true).
    { apply existsb_exists. exists p. split; [exact Hx | apply str_eqb_refl]. }
    congruence.
Qed.

Lemma keys_of_NoDup (paths : list str) : NoDup (keys_of paths).
Proof. apply keys_of_NoDup_from. constructor. Qed.

Lemma entries_plain (files : list str) (rnd : nat -> N) (content : str) :
  (forall p, In p files -> forallb plain p = true) ->
  let st := collect files rnd content in
  (forall x, In x (file_ref_entries (file_refs st)) ->
             forallb plain x = true) /\
  (forall x, In x (build_file_entries (file_refs st) (build_files st)) ->
             forallb plain x = true) /\
  (forall x, In x (sources_entries (build_files st)) ->
             forallb plain x = true).
Proof.
  intros Hf st.
  destruct (collect_values rnd content files
              (fun k v => forallb plain k = true /\ forallb plain v = true))
    as [Vr Vb].
  { intros k n Hk. split; [apply Hf; exact Hk | apply generate_uuid_plain]. }
  fold st in Vr, Vb. repeat split.
  - intros x Hx. apply in_map_iff in Hx. destruct Hx as [[k v] [<- Hx]].
    destruct (Vr k v Hx). apply file_ref_entry_plain; simpl; auto.
    apply basename_forallb. auto.
  - intros x Hx. apply in_map_iff in Hx. destruct Hx as [[k v] [<- Hx]].
    destruct (Vb k v Hx). apply build_file_entry_plain; simpl; auto.
    + unfold ref_of. destruct (dict_get k (file_refs st)) as [r|] eqn:E;
        [|reflexivity].
      apply dict_get_in in E. apply (Vr k r E).
    + apply basename_forallb. auto.
  - intros x Hx. apply in_map_iff in Hx. destruct Hx as [[k v] [<- Hx]].
    destruct (Vb k v Hx). apply sources_entry_plain; simpl; auto.
    apply basename_forallb. auto.
Qed.

Lemma concat_plain_not_bslash (l : list str) :
  (forall x, In x l -> forallb plain x = true) ->
  forallb not_bslash (concat l) = true.
Proof.
  intros H. apply forallb_concat. intros x Hx. apply plain_not_bslash. auto.
Qed.

(** The run with a queue that is not empty. *)
Lemma run_after_gates_queued (files : list str) (rnd : nat -> N)
  (g sp content c2 c3 : str) :
  file_refs (collect files rnd content) <> [] ->
  add_build_files
    (add_file_references content (file_refs (collect files rnd content)))
    (file_refs (collect files rnd content))
    (build_files (collect files rnd content)) = Some c2 ->
  add_to_sources_phase sp c2 (build_files (collect files rnd content))
  = Some c3 ->
  run_after_gates files rnd g sp content
  = mkResult (Write c3)
      (printed (collect files rnd content)
       ++ added_report (file_refs (collect files rnd content))) false.
Proof.
  intros Hq HB HC. unfold run_after_gates. rewrite HB, HC.
  destruct (file_refs (collect files rnd content)); [congruence|reflexivity].
Qed.

(** ** Conservation *)





(** ** The order of the phase list *)







Lemma phase_match_shape (sp s : str) (m : rmatch) :
  search (sources_phase_pattern sp) s = Some m ->
  group0 m = phase_head m ++ phase_list m /\
  phase_head m = sp ++ txt " = {" ++ nth 2 (m_pieces m) [] ++ txt "files = (" /\
  forallb not_rparen (phase_list m) = true.
Proof.
  intros H. apply search_sound in H. destruct H as [H _].
  unfold sources_phase_pattern in H.
  apply match_lit_inv in H. destruct H as [s0 [ps0 [_ [P0 H]]]].
  apply match_lit_inv in H. destruct H as [s1 [ps1 [_ [P1 H]]]].
  apply match_starG_inv in H. destruct H as [x [s2 [ps2 [_ [P2 [_ H]]]]]].
  apply match_lit_inv in H. destruct H as [s3 [ps3 [_ [P3 H]]]].
  apply match_starG_inv in H. destruct H as [y [s4 [ps4 [_ [P4 [Fy H]]]]]].
  simpl in H. injection H as Hps _. subst.
  unfold group0, phase_head, phase_list. rewrite P0.
  cbn [concat firstn nth]. rewrite !app_nil_r, <- !app_assoc. auto.
Qed.

Lemma add_file_references_clean (content : str) (frefs : dict) :
  forallb not_bslash content = true ->
  (forall x, In x (file_ref_entries frefs) -> forallb plain x = true) ->
  forallb not_bslash (add_file_references content frefs) = true.
Proof.
  intros Hc He.
  destruct (search (section_re FileReference) content) as [m|] eqn:S1.
  - destruct (add_file_references_spec content frefs) as [g [Sg E]];
      [congruence|].
    rewrite E. apply forallb_str_replace; [| |exact Hc].
    + intros H. apply app_eq_nil in H. destruct H as [_ H].
      exact (end_marker_nonempty _ H).
    + apply txt_app_forallb.
      * apply (forallb_Sub not_bslash g content); [|exact Hc].
        eapply Sub_trans; [|exact Sg]. apply Sub_app_r, Sub_refl.
      * apply txt_app_forallb; [|reflexivity].
        apply concat_plain_not_bslash. exact He.
  - unfold add_file_references. rewrite S1. exact Hc.
Qed.

Lemma add_build_files_clean (content : str) (frefs bfiles : dict) :
  (forall k, In k (map fst bfiles) -> In k (map fst frefs)) ->
  forallb not_bslash content = true ->
  (forall x, In x (build_file_entries frefs bfiles) ->
             forallb plain x = true) ->
  exists c2, add_build_files content frefs bfiles = Some c2 /\
             forallb not_bslash c2 = true.
Proof.
  intros K Hc He.
  destruct (search (section_re BuildFile) content) as [m|] eqn:S1.
  - destruct (add_build_files_spec content frefs bfiles) as [g [Sg E]];
      [congruence | exact K |].
    rewrite E. eexists. split; [reflexivity|].
    apply forallb_str_replace; [| |exact Hc].
    + intros H. apply app_eq_nil in H. destruct H as [_ H].
      exact (end_marker_nonempty _ H).
    + apply txt_app_forallb.
      * apply (forallb_Sub not_bslash g content); [|exact Hc].
        eapply Sub_trans; [|exact Sg]. apply Sub_app_r, Sub_refl.
      * apply txt_app_forallb; [|reflexivity].
        apply concat_plain_not_bslash. exact He.
  - unfold add_build_files. rewrite S1. eauto.
Qed.







(** * Further properties of the script *)

(** ** Reading the file *)

Lemma universal_newlines_cons (c : ascii) (b : str) :
  universal_newlines (c :: b)
  = if eqc c CR then
      match b with
      | d :: b'' => if eqc d LF then LF :: universal_newlines b''
                    else LF :: universal_newlines b
      | [] => [LF]
      end
    else c :: universal_newlines b.
Proof. reflexivity. Qed.

Lemma forallb_cons_eq (f : ascii -> bool) (c : ascii) (s : str) :
  forallb f (c :: s) = f c && forallb f s.
Proof. reflexivity. Qed.

Lemma universal_newlines_no_cr_upto (n : nat) (b : str) :
  length b <= n -> forallb not_cr (universal_newlines b) = true.
Proof.
  revert b. induction n as [|n IH]; intros b H.
  - destruct b; [reflexivity | simpl in H; lia].
  - destruct b as [|c b]; [reflexivity|]. rewrite universal_newlines_cons.
    simpl in H. destruct (eqc c CR) eqn:E.
    + destruct b as [|d b]; [reflexivity|]. simpl in H.
      destruct (eqc d LF); rewrite forallb_cons_eq;
        (replace (not_cr LF) with true by reflexivity);
        apply IH; simpl; lia.
    + rewrite forallb_cons_eq. unfold not_cr at 1. rewrite E. simpl.
      apply IH. lia.
Qed.

Lemma universal_newlines_id (b : str) :
  forallb not_cr b = true -> universal_newlines b = b.
Proof.
  induction b as [|c b IH]; intros H; [reflexivity|].
  simpl in H. apply andb_true_iff in H. destruct H as [H1 H2].
  rewrite universal_newlines_cons. unfold not_cr in H1.
  apply negb_true_iff in H1. rewrite H1, IH; auto.
Qed.

(** X15: the text the script works on holds no carriage return, whatever
    the bytes of the file, and reading it again changes nothing. *)
Theorem read_text_has_no_cr (bytes : str) :
  forallb not_cr (universal_newlines bytes) = true /\
  universal_newlines (universal_newlines bytes) = universal_newlines bytes.
Proof.
  assert (H : forallb not_cr (universal_newlines bytes) = true)
    by (apply (universal_newlines_no_cr_upto (length bytes)); lia).
  split; [exact H|]. apply universal_newlines_id. exact H.
Qed.

(** ** Base names *)

Lemma startswith_slash (c : ascii) (s : str) :
  startswith (txt "/") (c :: s) = eqc c "/"%char.
Proof.
  unfold startswith. change (txt "/") with ["/"%char].
  cbn [strip_prefix].
  replace (eqc c "/"%char) with (eqc "/"%char c) by apply Ascii.eqb_sym.
  destruct (eqc "/"%char c); reflexivity.
Qed.

Lemma contains_slash_false (s : str) :
  contains (txt "/") s = false <-> forallb not_slash s = true.
Proof.
  induction s as [|c s IH]; rewrite contains_eq.
  - split; intros; reflexivity.
  - rewrite startswith_slash, forallb_cons_eq. unfold not_slash at 1.
    destruct (eqc c "/"%char); simpl.
    + split; discriminate.
    + exact IH.
Qed.

(** X16: the base name of a path holds no slash, and the path is the
    base name behind a directory part that is empty or ends in a
    slash. *)
Theorem basename_spec (p : str) :
  exists dir,
    p = dir ++ basename p /\
    forallb not_slash (basename p) = true /\
    (dir = [] \/ exists d, dir = d ++ txt "/").
Proof.
  induction p as [|c p [dir [E [F D]]]].
  - exists []. simpl. auto.
  - rewrite basename_eq. destruct (contains (txt "/") p) eqn:C.
    + exists (c :: dir). split; [simpl; congruence|]. split; [exact F|].
      right. destruct D as [->|[d ->]].
      * exfalso. simpl in E. rewrite <- E in F.
        apply contains_slash_false in F. congruence.
      * exists (c :: d). reflexivity.
    + apply contains_slash_false in C. destruct (eqc c "/"%char) eqn:S.
      * apply eqc_eq in S. subst c. exists (txt "/").
        split; [reflexivity|]. split; [exact C|]. right. exists []. reflexivity.
      * exists []. split; [reflexivity|]. split; [|left; reflexivity].
        simpl. unfold not_slash at 1. rewrite S. exact C.
Qed.

(** ** Identifiers *)

Lemma uuid4_testbit (r n : N) :
  N.testbit (uuid4 r) n
  = ((N.testbit r n && N.testbit (N.ones 128) n)
       && negb (N.testbit (N.shiftl 0xc000 48) n)
     || N.testbit (N.shiftl 0x8000 48) n)
      && negb (N.testbit (N.shiftl 0xf000 64) n)
    || N.testbit (N.shiftl 4 76) n.
Proof.
  unfold uuid4. cbv zeta.
  rewrite N.lor_spec, N.ldiff_spec, N.lor_spec, N.ldiff_spec, N.land_spec.
  reflexivity.
Qed.

Lemma nibble_testbit (u pos i : N) :
  N.testbit (N.land (N.shiftr u pos) 15) i
  = N.testbit u (i + pos) && N.testbit 15 i.
Proof.
  rewrite N.land_spec, N.shiftr_spec; [reflexivity | apply N.le_0_l].
Qed.

Lemma nibble_lt_16 (x : N) : (N.land x 15 < 16)%N.
Proof.
  change 15%N with (N.ones 4). rewrite N.land_ones.
  apply N.mod_upper_bound. discriminate.
Qed.

Lemma hex_upper_from_nth (k : nat) (pos v : N) (i : nat) (d : ascii) :
  i < k ->
  nth i (hex_upper_from k pos v) d
  = hex_digit_upper (N.land (N.shiftr v (4 * (pos - N.of_nat i))) 15).
Proof.
  revert pos i. induction k as [|k IH]; intros pos i H; [lia|].
  destruct i as [|i]; simpl hex_upper_from; cbn [nth].
  - rewrite N.sub_0_r. reflexivity.
  - rewrite IH by lia. rewrite <- N.sub_add_distr.
    replace (1 + N.of_nat i)%N with (N.of_nat (S i)) by lia. reflexivity.
Qed.

(** The version digit: bits 76 to 79 are forced to 4. *)
Lemma uuid4_version (r : N) : N.land (N.shiftr (uuid4 r) 76) 15 = 4%N.
Proof.
  pose proof (nibble_lt_16 (N.shiftr (uuid4 r) 76)) as L.
  pose proof (nibble_testbit (uuid4 r) 76 0) as B0.
  pose proof (nibble_testbit (uuid4 r) 76 1) as B1.
  pose proof (nibble_testbit (uuid4 r) 76 2) as B2.
  pose proof (nibble_testbit (uuid4 r) 76 3) as B3.
  rewrite uuid4_testbit in B0, B1, B2, B3.
  revert B0 B1 B2 B3.
  generalize (N.testbit r (0 + 76)), (N.testbit r (1 + 76)),
             (N.testbit r (2 + 76)), (N.testbit r (3 + 76)).
  intros b0 b1 b2 b3.
  destruct (N.land (N.shiftr (uuid4 r) 76) 15) as [|p];
    [|do 4 (try destruct p as [p|p|])]; try (exfalso; lia);
    destruct b0, b1, b2, b3; vm_compute; intros; congruence.
Qed.

(** The variant digit: bits 62 and 63 are forced to 0 and 1. *)
Lemma uuid4_variant (r : N) :
  In (N.land (N.shiftr (uuid4 r) 60) 15) [8; 9; 10; 11]%N.
Proof.
  pose proof (nibble_lt_16 (N.shiftr (uuid4 r) 60)) as L.
  pose proof (nibble_testbit (uuid4 r) 60 2) as B2.
  pose proof (nibble_testbit (uuid4 r) 60 3) as B3.
  rewrite uuid4_testbit in B2, B3.
  revert B2 B3.
  generalize (N.testbit r (2 + 60)), (N.testbit r (3 + 60)).
  intros b2 b3.
  destruct (N.land (N.shiftr (uuid4 r) 60) 15) as [|p];
    [|do 4 (try destruct p as [p|p|])]; try (exfalso; lia);
    destruct b2, b3; vm_compute; intros; try congruence; tauto.
Qed.

(** X1: an identifier is twenty-four upper-case hexadecimal digits; its
    thirteenth digit is the version digit 4 and its seventeenth is the
    variant digit, one of 8, 9, A and B. *)
Theorem generate_uuid_shape (r : N) :
  length (generate_uuid r) = 24 /\
  forallb is_hex (generate_uuid r) = true /\
  nth 12 (generate_uuid r) " "%char = "4"%char /\
  In (nth 16 (generate_uuid r) " "%char) (txt "89AB").
Proof.
  destruct (generate_uuid_is_hex r) as [H L].
  split; [exact L|]. split; [exact H|]. unfold generate_uuid. split.
  - rewrite hex_upper_from_nth by lia.
    change (4 * (31 - N.of_nat 12))%N with 76%N.
    rewrite uuid4_version. reflexivity.
  - rewrite hex_upper_from_nth by lia.
    change (4 * (31 - N.of_nat 16))%N with 60%N.
    destruct (uuid4_variant r) as [E|[E|[E|[E|[]]]]]; rewrite <- E;
      simpl; auto.
Qed.

Lemma uuid4_high_bits (r r' : N) :
  N.shiftr r 32 = N.shiftr r' 32 ->
  forall n, (32 <= n)%N -> N.testbit (uuid4 r) n = N.testbit (uuid4 r') n.
Proof.
  intros H n Hn. rewrite !uuid4_testbit.
  assert (E : N.testbit r n = N.testbit r' n).
  { replace n with (n - 32 + 32)%N by lia.
    rewrite <- !N.shiftr_spec by apply N.le_0_l. rewrite H. reflexivity. }
  rewrite E. reflexivity.
Qed.

Lemma hex_upper_from_ext (u u' : N) (k : nat) (pos : N) :
  (forall n, (32 <= n)%N -> N.testbit u n = N.testbit u' n) ->
  (N.of_nat k + 7 <= pos)%N ->
  hex_upper_from k pos u = hex_upper_from k pos u'.
Proof.
  intros H. revert pos. induction k as [|k IH]; intros pos Hp;
    cbn [hex_upper_from]; [reflexivity|].
  f_equal.
  - f_equal. apply N.bits_inj. intros i. rewrite !nibble_testbit.
    rewrite H by lia. reflexivity.
  - apply IH. lia.
Qed.

(** X2: only the ninety-six leading bits of the random number reach the
    identifier: two draws that differ in their thirty-two low bits only
    give the same identifier. *)
Theorem generate_uuid_ignores_low_bits (r r' : N) :
  N.shiftr r 32 = N.shiftr r' 32 -> generate_uuid r = generate_uuid r'.
Proof.
  intros H. unfold generate_uuid. apply hex_upper_from_ext.
  - apply uuid4_high_bits. exact H.
  - simpl. lia.
Qed.

Lemma generate_uuid_ignores_low_bits_witness :
  generate_uuid 0x123456789abcdef0123456789abcdef0
  = generate_uuid 0x123456789abcdef0123456780fedcba9.
Proof.
  apply (generate_uuid_ignores_low_bits
           0x123456789abcdef0123456789abcdef0
           0x123456789abcdef0123456780fedcba9).
  vm_compute. reflexivity.
Defined.

(** ** What the lookups accept *)

Lemma push_piece_not_none (x : str) (m : option (list str * str)) :
  m <> None -> push_piece x m <> None.
Proof. destruct m as [[ps r]|]; simpl; congruence. Qed.

Lemma match_lit_complete (l : str) (re : list item) (s0 : str) :
  match_here re s0 <> None -> match_here (Lit l :: re) (l ++ s0) <> None.
Proof.
  intros H. simpl. rewrite strip_prefix_self. apply push_piece_not_none, H.
Qed.



Lemma starG_grow_not_none (p : ascii -> bool) (re : list item)
  (c : ascii) (s : str) :
  match_here (StarG p :: re) s <> None ->
  grow_piece c (match_here (StarG p :: re) s) <> None.
Proof.
  destruct (match_here (StarG p :: re) s) as [[ps r]|] eqn:M; [|congruence].
  intros _. apply match_starG_inv in M.
  destruct M as [x [s0 [ps' [_ [-> _]]]]]. simpl. congruence.
Qed.

Lemma starL_grow_not_none (p : ascii -> bool) (re : list item)
  (c : ascii) (s : str) :
  match_here (StarL p :: re) s <> None ->
  grow_piece c (match_here (StarL p :: re) s) <> None.
Proof.
  destruct (match_here (StarL p :: re) s) as [[ps r]|] eqn:M; [|congruence].
  intros _. apply match_starL_inv in M.
  destruct M as [x [s0 [ps' [_ [-> _]]]]]. simpl. congruence.
Qed.

(** A greedy star matches whenever some run of its class is followed by
    a match of the rest. *)
Lemma match_starG_complete (p : ascii -> bool) (re : list item) (x s0 : str) :
  forallb p x = true -> match_here re s0 <> None ->
  match_here (StarG p :: re) (x ++ s0) <> None.
Proof.
  intros Hx H. induction x as [|c x IH].
  - change ([] ++ s0) with s0. rewrite match_here_starG_eq.
    destruct s0 as [|c s0]; [apply push_piece_not_none, H|].
    destruct (p c); [|apply push_piece_not_none, H].
    pose proof (starG_grow_not_none p re c s0) as G.
    destruct (match_here (StarG p :: re) s0) as [m|].
    + apply G. discriminate.
    + apply push_piece_not_none, H.
  - change ((c :: x) ++ s0) with (c :: (x ++ s0)).
    rewrite match_here_starG_eq.
    rewrite forallb_cons_eq in Hx. apply andb_true_iff in Hx.
    destruct Hx as [Hc Hx]. rewrite Hc. specialize (IH Hx).
    pose proof (starG_grow_not_none p re c (x ++ s0)) as G.
    destruct (match_here (StarG p :: re) (x ++ s0)) as [m|];
      [|congruence].
    apply G. discriminate.
Qed.

Lemma match_starL_complete (p : ascii -> bool) (re : list item) (x s0 : str) :
  forallb p x = true -> match_here re s0 <> None ->
  match_here (StarL p :: re) (x ++ s0) <> None.
Proof.
  intros Hx H. induction x as [|c x IH].
  - change ([] ++ s0) with s0. rewrite match_here_starL_eq.
    destruct (match_here re s0) as [[ps r]|]; [|congruence].
    discriminate.
  - change ((c :: x) ++ s0) with (c :: (x ++ s0)).
    rewrite match_here_starL_eq.
    rewrite forallb_cons_eq in Hx. apply andb_true_iff in Hx.
    destruct Hx as [Hc Hx].
    destruct (match_here re (c :: x ++ s0)) as [[ps r]|].
    + discriminate.
    + rewrite Hc. apply starL_grow_not_none. auto.
Qed.

Lemma search_complete (re : list item) (a s : str) :
  match_here re s <> None -> search re (a ++ s) <> None.
Proof.
  intros H. induction a as [|c a IH].
  - change ([] ++ s) with s. rewrite search_eq.
    destruct (match_here re s) as [[ps r]|]; congruence.
  - change ((c :: a) ++ s) with (c :: (a ++ s)). rewrite search_eq.
    destruct (match_here re (c :: a ++ s)) as [[ps r]|];
      [discriminate|].
    destruct (search re (a ++ s)); congruence.
Qed.

(** [search] finds the leftmost match. *)
Lemma search_leftmost (re : list item) (s : str) (m : rmatch) :
  search re s = Some m ->
  forall a1 a2, m_before m = a1 ++ a2 -> a2 <> [] ->
                match_here re (skipn (length a1) s) = None.
Proof.
  revert m. induction s as [|c s IH]; intros m H a1 a2 E Ha;
    rewrite search_eq in H.
  - destruct (match_here re []) as [[ps r]|]; [|discriminate].
    injection H as <-. simpl in E. destruct a1, a2; try discriminate.
    congruence.
  - destruct (match_here re (c :: s)) as [[ps r]|] eqn:M.
    + injection H as <-. simpl in E. destruct a1, a2; try discriminate.
      congruence.
    + destruct (search re s) as [m'|] eqn:S'; [|discriminate].
      injection H as <-. simpl in E. destruct a1 as [|d a1].
      * exact M.
      * simpl in E. injection E as _ E. simpl. eapply IH; eauto.
Qed.

Lemma search_split (re : list item) (s : str) (m : rmatch) :
  search re s = Some m ->
  exists s', s = m_before m ++ s' /\
             match_here re s' = Some (m_pieces m, m_after m).
Proof.
  intros H. apply search_sound in H. destruct H as [H1 H2].
  exists (skipn (length (m_before m)) s). split; [|exact H1].
  rewrite <- H2 at 1. symmetry. apply firstn_skipn.
Qed.



(** A lazy star takes the shortest run after which the rest matches. *)
Lemma match_starL_min (p : ascii -> bool) (re : list item) (s : str)
  (ps : list str) (r : str) :
  match_here (StarL p :: re) s = Some (ps, r) ->
  exists x s0 ps',
    s = x ++ s0 /\ ps = x :: ps' /\ match_here re s0 = Some (ps', r) /\
    forall x1 x2, x = x1 ++ x2 -> x2 <> [] -> match_here re (x2 ++ s0) = None.
Proof.
  revert ps r. induction s as [|c s IH]; intros ps r H;
    rewrite match_here_starL_eq in H.
  - destruct (match_here re []) as [m|] eqn:M; [|discriminate].
    apply push_piece_some in H. destruct H as [ps' [H ->]].
    injection H as ->. exists [], [], ps'. repeat split; auto.
    intros x1 x2 E Hx. destruct x1, x2; try discriminate. congruence.
  - destruct (match_here re (c :: s)) as [m|] eqn:M.
    + apply push_piece_some in H. destruct H as [ps' [H ->]].
      injection H as ->. exists [], (c :: s), ps'. repeat split; auto.
      intros x1 x2 E Hx. destruct x1, x2; try discriminate. congruence.
    + destruct (p c) eqn:Pc; [|discriminate].
      apply grow_piece_some in H. destruct H as [x [ps' [H ->]]].
      destruct (IH _ _ H) as [x' [s0 [ps'' [-> [Q [H' Min]]]]]].
      injection Q as <- <-. exists (c :: x), s0, ps'. repeat split; auto.
      intros x1 x2 E Hx. destruct x1 as [|d x1].
      * simpl in E. subst x2. exact M.
      * simpl in E. injection E as _ E. eapply Min; eauto.
Qed.

Lemma forallb_any_char (s : str) : forallb any_char s = true.
Proof. induction s; simpl; auto. Qed.

Lemma match_lit_only_none (l s : str) :
  match_here [Lit l] s = None -> startswith l s = false.
Proof.
  unfold startswith. simpl. destruct (strip_prefix l s); [discriminate|].
  reflexivity.
Qed.

Lemma skipn_app_exact (a b : str) : skipn (length a) (a ++ b) = b.
Proof. induction a; simpl; auto. Qed.

(** The section found: from the first begin marker to the first end
    marker after it. *)
Lemma section_search_first (name s : str) (m : rmatch) :
  search (section_re name) s = Some m ->
  exists body,
    s = m_before m ++ begin_marker name ++ body ++ end_marker name
        ++ m_after m /\
    group0 m = begin_marker name ++ body ++ end_marker name /\
    group_span 0 2 m = begin_marker name ++ body /\
    (forall a1 a2, m_before m = a1 ++ a2 -> a2 <> [] ->
       startswith (begin_marker name)
         (a2 ++ begin_marker name ++ body ++ end_marker name
             ++ m_after m) = false) /\
    (forall x1 x2, body = x1 ++ x2 -> x2 <> [] ->
       startswith (end_marker name)
         (x2 ++ end_marker name ++ m_after m) = false).
Proof.
  intros S1.
  destruct (search_split _ _ _ S1) as [s' [E H]]. unfold section_re in H.
  apply match_lit_inv in H. destruct H as [s0 [ps0 [E0 [P0 H]]]].
  apply match_starL_min in H.
  destruct H as [body [s1 [ps1 [E1 [P1 [H Min]]]]]].
  apply match_lit_inv in H. destruct H as [s2 [ps2 [E2 [P2 H]]]].
  simpl in H. injection H as Hps Haft. subst s' s0 s1 s2 ps0 ps1 ps2.
  exists body. unfold group0, group_span. rewrite P0.
  cbn [skipn firstn concat]. rewrite !app_nil_r.
  split; [exact E|]. split; [reflexivity|].
  split; [reflexivity|]. split.
  + intros a1 a2 Eb Ha.
    pose proof (search_leftmost _ _ _ S1 a1 a2 Eb Ha) as L.
    rewrite E, Eb, <- app_assoc, skipn_app_exact in L.
    destruct (startswith (begin_marker name)
                (a2 ++ begin_marker name ++ body ++ end_marker name
                    ++ m_after m)) eqn:W; [exfalso|reflexivity].
    apply startswith_true in W. destruct W as [t W].
    assert (T : exists l, t = l ++ end_marker name ++ m_after m).
    { assert (W' : (a2 ++ begin_marker name ++ body)
                   ++ end_marker name ++ m_after m
                   = begin_marker name ++ t)
        by (rewrite <- W, <- !app_assoc; reflexivity).
      apply app_eq_app in W'. destruct W' as [l [[W1 W2]|[W1 W2]]].
      - exists l. exact W2.
      - exfalso. apply (f_equal (@length _)) in W1.
        rewrite !length_app in W1. destruct a2; [congruence|].
        simpl in W1. lia. }
    destruct T as [l ->]. rewrite W in L. revert L.
    apply match_lit_complete.
    apply match_starL_complete; [apply forallb_any_char|].
    apply match_lit_complete. discriminate.
  + intros x1 x2 Eb Hx. apply match_lit_only_none.
    eapply Min; eauto.
Qed.

(** X5: the section lookup.  When it succeeds, the section runs from
    the first begin marker of the text to the first end marker that
    follows it: no begin marker starts further left, and no end marker
    starts inside the body.  It fails only when no begin marker is
    followed by an end marker. *)
Theorem section_lookup (name s : str) :
  match search (section_re name) s with
  | Some m =>
      exists body,
        s = m_before m ++ begin_marker name ++ body ++ end_marker name
            ++ m_after m /\
        group0 m = begin_marker name ++ body ++ end_marker name /\
        group_span 0 2 m = begin_marker name ++ body /\
        (forall a1 a2, m_before m = a1 ++ a2 -> a2 <> [] ->
           startswith (begin_marker name)
             (a2 ++ begin_marker name ++ body ++ end_marker name
                 ++ m_after m) = false) /\
        (forall x1 x2, body = x1 ++ x2 -> x2 <> [] ->
           startswith (end_marker name)
             (x2 ++ end_marker name ++ m_after m) = false)
  | None =>
      forall a b c,
        s <> a ++ begin_marker name ++ b ++ end_marker name ++ c
  end.
Proof.
  destruct (search (section_re name) s) as [m|] eqn:S1.
  - apply section_search_first. exact S1.
  - intros a b c E.
    apply (search_complete (section_re name) a
             (begin_marker name ++ b ++ end_marker name ++ c)).
    + unfold section_re. apply match_lit_complete.
      apply match_starL_complete; [apply forallb_any_char|].
      apply match_lit_complete. discriminate.
    + rewrite <- E. exact S1.
Qed.

(** X6: the lookup of the phase's files list.  When it succeeds, the
    text is cut at the phase identifier, [ = {], a run without closing
    brace, [files = (] and the list, which holds no closing parenthesis
    and is followed by one or by the end of the text.  It fails only on
    a text in which the identifier and [ = {] are nowhere followed by
    [files = (] before a closing brace. *)
Theorem files_list_lookup (sp s : str) :
  match search (sources_phase_pattern sp) s with
  | Some m =>
      exists x,
        s = m_before m ++ phase_head m ++ phase_list m ++ m_after m /\
        phase_head m = sp ++ txt " = {" ++ x ++ txt "files = (" /\
        group_span 0 5 m = phase_head m ++ phase_list m /\
        forallb not_rbrace x = true /\
        forallb not_rparen (phase_list m) = true /\
        (m_after m = [] \/ exists r, m_after m = ")"%char :: r)
  | None =>
      forall a x b,
        forallb not_rbrace x = true ->
        s <> a ++ sp ++ txt " = {" ++ x ++ txt "files = (" ++ b
  end.
Proof.
  destruct (search (sources_phase_pattern sp) s) as [m|] eqn:S1.
  - destruct (phase_search _ _ _ S1) as [E [G St]].
    destruct (phase_match_shape _ _ _ S1) as [G0 [Hd Fy]].
    destruct (search_split _ _ _ S1) as [s' [_ H]].
    unfold sources_phase_pattern in H.
    apply match_lit_inv in H. destruct H as [s0 [ps0 [_ [P0 H]]]].
    apply match_lit_inv in H. destruct H as [s1 [ps1 [_ [P1 H]]]].
    apply match_starG_inv in H. destruct H as [x [s2 [ps2 [_ [P2 [Fx _]]]]]].
    exists x. split; [rewrite E, G0, <- app_assoc; reflexivity|].
    split.
    { rewrite Hd, P0, P1, P2. reflexivity. }
    split; [rewrite G, G0; reflexivity|]. auto.
  - intros a x b Fx E.
    apply (search_complete (sources_phase_pattern sp) a
             (sp ++ txt " = {" ++ x ++ txt "files = (" ++ b)).
    + unfold sources_phase_pattern. apply match_lit_complete.
      apply match_lit_complete. apply match_starG_complete; [exact Fx|].
      apply match_lit_complete.
      destruct (match_last_star_total not_rparen b) as [y [r M]].
      rewrite M. discriminate.
    + rewrite <- E. exact S1.
Qed.

(** ** Exceptions *)

Lemma add_build_files_total (content : str) (frefs bfiles : dict) :
  (forall k, In k (map fst bfiles) -> In k (map fst frefs)) ->
  exists c2, add_build_files content frefs bfiles = Some c2.
Proof.
  intros K. unfold add_build_files.
  destruct (search (section_re BuildFile) content) as [m|]; [|eauto].
  rewrite (build_file_block_eq _ _ _ K). eauto.
Qed.

(** X7: the lookup [file_refs[file_path]] never fails, so the
    build-file step always returns a text; and the run ends in an
    exception exactly when a path is queued, the files list is found in
    that text and [re.sub] rejects the replacement text built from it. *)
Theorem exception_only_from_re_sub (files : list str) (rnd : nat -> N)
  (g sp content : str) :
  let st := collect files rnd content in
  let c1 := add_file_references content (file_refs st) in
  exists c2,
    add_build_files c1 (file_refs st) (build_files st) = Some c2 /\
    (raised (run_after_gates files rnd g sp content) = true <->
     file_refs st <> [] /\
     exists m,
       search (sources_phase_pattern sp) c2 = Some m /\
       let repl := sources_block (build_files st) (group_span 0 5 m) in
       parse_template (S (length repl)) 1 repl = None).
Proof.
  intros st c1.
  destruct (add_build_files_total c1 (file_refs st) (build_files st))
    as [c2 HB].
  { intros k Hk. unfold st. rewrite collect_same_keys. exact Hk. }
  exists c2. split; [exact HB|].
  unfold run_after_gates. fold st. fold c1. rewrite HB.
  unfold add_to_sources_phase, re_sub.
  destruct (file_refs st) as [|kv d].
  - simpl. split; [discriminate|]. intros [H _]. exfalso. apply H.
    reflexivity.
  - destruct (search (sources_phase_pattern sp) c2) as [m|].
    + cbv zeta.
      destruct (parse_template _ 1 _) eqn:P; cbn [raised].
      * split; [discriminate|]. intros [_ [m' [E P']]].
        injection E as <-. rewrite P in P'. discriminate.
      * split; [|reflexivity]. intros _. split; [discriminate|].
        exists m. auto.
    + simpl. split; [discriminate|]. intros [_ [m [E _]]]. discriminate.
Qed.

Lemma universal_newlines_keeps_upto (P : ascii -> bool) (n : nat) (b : str) :
  P LF = true -> length b <= n -> forallb P b = true ->
  forallb P (universal_newlines b) = true.
Proof.
  intros HL. revert b. induction n as [|n IH]; intros b H F.
  - destruct b; [reflexivity | simpl in H; lia].
  - destruct b as [|c b]; [reflexivity|]. rewrite universal_newlines_cons.
    rewrite forallb_cons_eq in F. apply andb_true_iff in F.
    destruct F as [Fc F]. simpl in H. destruct (eqc c CR).
    + destruct b as [|d b]; [simpl; rewrite HL; reflexivity|].
      rewrite forallb_cons_eq in F. apply andb_true_iff in F.
      destruct F as [Fd F]. simpl in H.
      destruct (eqc d LF); rewrite forallb_cons_eq, HL, andb_true_l;
        apply IH; try (simpl; lia); auto.
      rewrite forallb_cons_eq, Fd, F. reflexivity.
    + rewrite forallb_cons_eq, Fc, andb_true_l. apply IH; [lia | exact F].
Qed.

Lemma universal_newlines_not_bslash (b : str) :
  forallb not_bslash b = true ->
  forallb not_bslash (universal_newlines b) = true.
Proof.
  apply (universal_newlines_keeps_upto not_bslash (length b));
    [reflexivity | lia].
Qed.

Lemma re_sub_plain (re : list item) (groups : nat)
  (groups_of : list str -> list str) (repl s : str) :
  forallb not_bslash repl = true ->
  re_sub re groups groups_of repl s <> None.
Proof.
  intros H. unfold re_sub. rewrite parse_template_plain; [discriminate| |lia].
  exact H.
Qed.

(** After the gates, on a text and paths without backslashes. *)
Lemma run_after_gates_clean (files : list str) (rnd : nat -> N)
  (g sp content : str) :
  forallb not_bslash content = true ->
  (forall p, In p files -> forallb plain p = true) ->
  let st := collect files rnd content in
  raised (run_after_gates files rnd g sp content) = false /\
  (file_refs st <> [] ->
   exists c3,
     run_after_gates files rnd g sp content
     = mkResult (Write c3) (printed st ++ added_report (file_refs st)) false).
Proof.
  intros Hc Hf st.
  destruct (entries_plain files rnd content Hf) as [PA [PB PC]].
  fold st in PA, PB, PC.
  assert (C1 : forallb not_bslash
                 (add_file_references content (file_refs st)) = true)
    by (apply add_file_references_clean; assumption).
  destruct (add_build_files_clean
              (add_file_references content (file_refs st))
              (file_refs st) (build_files st)) as [c2 [HB C2]]; auto.
  { intros k Hk. unfold st. rewrite collect_same_keys. exact Hk. }
  assert (HC : exists c3,
             add_to_sources_phase sp c2 (build_files st) = Some c3).
  { unfold add_to_sources_phase.
    destruct (search (sources_phase_pattern sp) c2) as [m|] eqn:S1; [|eauto].
    destruct (re_sub (sources_phase_pattern sp) 1 phase_groups
                (sources_block (build_files st) (group_span 0 5 m)) c2)
      as [c3|] eqn:R; [eauto|].
    exfalso. revert R. apply re_sub_plain. rewrite sources_block_eq.
    destruct (phase_search _ _ _ S1) as [E [G _]]. rewrite G.
    apply txt_app_forallb; [|apply concat_plain_not_bslash; exact PC].
    apply (forallb_Sub not_bslash (group0 m) c2); [|exact C2].
    exists (m_before m), (m_after m). exact E. }
  destruct HC as [c3 HC]. split.
  - unfold run_after_gates. fold st. rewrite HB, HC.
    destruct (file_refs st); reflexivity.
  - intros Hq. exists c3.
    apply (run_after_gates_queued files rnd g sp content c2); assumption.
Qed.


Lemma files_to_add_plain (p : str) :
  In p files_to_add -> forallb plain p = true.
Proof.
  assert (H : forallb (forallb plain) files_to_add = true)
    by (vm_compute; reflexivity).
  rewrite forallb_forall in H. apply H.
Qed.


Lemma added_report_keys (d : dict) :
  added_report d
  = (txt "Added " ++ str_of_nat (length (map fst d))
       ++ txt " files to Xcode project")
      :: map (fun p => txt "  - " ++ p) (map fst d).
Proof. unfold added_report. rewrite length_map, map_map. reflexivity. Qed.

(** X9: the console of a successful run.  On a file and target paths
    without backslashes, when both gates pass and some target path is
    absent, the file is written and the console holds one
    already-exists line per present path, in list order, then the count
    of the absent paths (each counted once) and these paths, in list
    order. *)
Theorem report_on_success (files : list str) (rnd : nat -> N) (bytes : str) :
  let content := universal_newlines bytes in
  let queued := keys_of (filter (absent content) files) in
  forallb not_bslash bytes = true ->
  (forall p, In p files -> forallb plain p = true) ->
  matches main_group_re content = true ->
  matches sources_phase_re content = true ->
  existsb (absent content) files = true ->
  exists c3,
    add_files files rnd (Some bytes)
    = mkResult (Write c3)
        (map already_exists_line (filter (present content) files)
         ++ (txt "Added " ++ str_of_nat (length queued)
               ++ txt " files to Xcode project")
            :: map (fun p => txt "  - " ++ p) queued)
        false.
Proof.
  intros content queued Hb Hf G1 G2 Ha. unfold add_files. fold content.
  unfold matches in G1, G2.
  destruct (search main_group_re content) as [m1|]; [|discriminate].
  destruct (search sources_phase_re content) as [m2|]; [|discriminate].
  destruct (run_after_gates_clean files rnd (group_span 0 1 m1)
              (group_span 0 1 m2) content) as [_ H]; [|exact Hf|].
  { apply universal_newlines_not_bslash. exact Hb. }
  destruct H as [c3 H].
  { intros E. apply (f_equal (map fst)) in E. rewrite collect_keys in E.
    simpl in E. apply (proj1 (keys_of_nil _)) in E.
    apply existsb_exists in Ha. destruct Ha as [p [Hp Ap]].
    assert (I : In p (filter (absent content) files))
      by (apply filter_In; auto).
    rewrite E in I. exact I. }
  exists c3. rewrite H, collect_printed, added_report_keys, collect_keys.
  reflexivity.
Qed.

Lemma report_on_success_witness :
  let content := universal_newlines sample_with_here in
  let queued := keys_of (filter (absent content) [path_here; path_new]) in
  exists c3,
    add_files [path_here; path_new] sample_rnd (Some sample_with_here)
    = mkResult (Write c3)
        (map already_exists_line
             (filter (present content) [path_here; path_new])
         ++ (txt "Added " ++ str_of_nat (length queued)
               ++ txt " files to Xcode project")
            :: map (fun p => txt "  - " ++ p) queued)
        false.
Proof.
  apply (report_on_success [path_here; path_new] sample_rnd sample_with_here).
  - vm_compute. reflexivity.
  - intros p [<-|[<-|[]]]; vm_compute; reflexivity.
  - vm_compute. reflexivity.
  - vm_compute. reflexivity.
  - vm_compute. reflexivity.
Defined.

(** ** The patch only inserts *)

Lemma subseq_refl (s : str) : subseq s s.
Proof. induction s; constructor; auto. Qed.

Lemma subseq_nil (t : str) : subseq [] t.
Proof. induction t; constructor; auto. Qed.

Lemma subseq_trans (s t u : str) : subseq s t -> subseq t u -> subseq s u.
Proof.
  intros H1 H2. revert s H1.
  induction H2 as [|c t u H IH|c t u H IH]; intros s H1.
  - exact H1.
  - inversion H1 as [|c' s' t' H'|c' s' t' H']; subst.
    + constructor. auto.
    + apply ss_skip. auto.
  - apply ss_skip. auto.
Qed.

Lemma subseq_skip_app (x s t : str) : subseq s t -> subseq s (x ++ t).
Proof. intros H. induction x; simpl; [exact H | apply ss_skip; auto]. Qed.

Lemma subseq_insert (a x b : str) : subseq (a ++ b) (a ++ x ++ b).
Proof.
  induction a; simpl; [|constructor; auto].
  apply subseq_skip_app, subseq_refl.
Qed.

Lemma ins_before_subseq (E X s t : str) : ins_before E X s t -> subseq s t.
Proof.
  induction 1.
  - constructor.
  - constructor. assumption.
  - apply subseq_skip_app. constructor. assumption.
Qed.

Lemma add_file_references_ins (content : str) (frefs : dict) :
  ins_before (end_marker FileReference) (concat (file_ref_entries frefs))
             content (add_file_references content frefs).
Proof.
  destruct (search (section_re FileReference) content) as [m|] eqn:S1.
  - destruct (add_file_references_spec content frefs) as [g [_ E]];
      [congruence|].
    rewrite E. apply str_replace_ins, end_marker_nonempty.
  - unfold add_file_references. rewrite S1. apply ins_before_refl.
Qed.

Lemma add_build_files_ins (content c2 : str) (frefs bfiles : dict) :
  (forall k, In k (map fst bfiles) -> In k (map fst frefs)) ->
  add_build_files content frefs bfiles = Some c2 ->
  ins_before (end_marker BuildFile)
             (concat (build_file_entries frefs bfiles)) content c2.
Proof.
  intros K H.
  destruct (search (section_re BuildFile) content) as [m|] eqn:S1.
  - destruct (add_build_files_spec content frefs bfiles) as [g [_ E]];
      [congruence | exact K |].
    rewrite E in H. injection H as <-.
    apply str_replace_ins, end_marker_nonempty.
  - unfold add_build_files in H. rewrite S1 in H. injection H as <-.
    apply ins_before_refl.
Qed.

(** X10: the patch only inserts.  On a text and target paths without
    backslashes, where the phase pattern matches at most once in the
    text the membership step receives: the first two steps put copies
    of their block in front of occurrences of their end marker and
    change nothing else, the third step puts its block at the end of
    the files list, in front of the closing parenthesis or at the end
    of the text; so the text that was read is what is left of the
    result when the inserted characters are taken out. *)
Theorem patch_only_inserts (files : list str) (rnd : nat -> N)
  (sp content c2 : str) :
  let st := collect files rnd content in
  let c1 := add_file_references content (file_refs st) in
  forallb not_bslash content = true ->
  (forall p, In p files -> forallb plain p = true) ->
  add_build_files c1 (file_refs st) (build_files st) = Some c2 ->
  (forall m, search (sources_phase_pattern sp) c2 = Some m ->
             search (sources_phase_pattern sp) (m_after m) = None) ->
  exists c3,
    add_to_sources_phase sp c2 (build_files st) = Some c3 /\
    ins_before (end_marker FileReference)
               (concat (file_ref_entries (file_refs st))) content c1 /\
    ins_before (end_marker BuildFile)
               (concat (build_file_entries (file_refs st) (build_files st)))
               c1 c2 /\
    (c3 = c2 \/
     exists p q,
       c2 = p ++ q /\
       c3 = p ++ concat (sources_entries (build_files st)) ++ q /\
       (q = [] \/ exists r, q = ")"%char :: r)) /\
    subseq content c3.
Proof.
  intros st c1 Hc Hf HB H1.
  assert (K : forall k, In k (map fst (build_files st)) ->
                        In k (map fst (file_refs st))).
  { intros k Hk. unfold st. rewrite collect_same_keys. exact Hk. }
  destruct (entries_plain files rnd content Hf) as [PA [PB PC]].
  fold st in PA, PB, PC.
  assert (C1 : forallb not_bslash c1 = true)
    by (apply add_file_references_clean; assumption).
  destruct (add_build_files_clean c1 (file_refs st) (build_files st))
    as [c2' [HB' C2]]; auto.
  rewrite HB in HB'. injection HB' as <-.
  pose proof (add_file_references_ins content (file_refs st)) as IA.
  fold c1 in IA.
  pose proof (add_build_files_ins c1 c2 _ _ K HB) as IB.
  assert (S12 : subseq content c2).
  { eapply subseq_trans; eapply ins_before_subseq; eauto. }
  destruct (search (sources_phase_pattern sp) c2) as [m|] eqn:S1.
  - destruct (add_to_sources_phase_spec sp c2 (build_files st) m S1
                (H1 m eq_refl) C2) as [E [St EC]].
    { apply concat_plain_not_bslash. exact PC. }
    exists (m_before m ++ (group0 m ++ concat (sources_entries (build_files st)))
              ++ m_after m).
    split; [exact EC|]. split; [exact IA|]. split; [exact IB|].
    assert (E3 : m_before m
                 ++ (group0 m ++ concat (sources_entries (build_files st)))
                 ++ m_after m
                 = (m_before m ++ group0 m)
                   ++ concat (sources_entries (build_files st))
                   ++ m_after m)
      by (rewrite <- !app_assoc; reflexivity).
    split.
    + right. exists (m_before m ++ group0 m), (m_after m).
      split; [rewrite E at 1; rewrite <- app_assoc; reflexivity|].
      split; [exact E3 | exact St].
    + eapply subseq_trans; [exact S12|]. rewrite E3, E at 1.
      rewrite app_assoc. apply subseq_insert.
  - exists c2. split.
    + unfold add_to_sources_phase. rewrite S1. reflexivity.
    + split; [exact IA|]. split; [exact IB|]. split; [left; reflexivity|].
      exact S12.
Qed.

Lemma patch_only_inserts_witness :
  let st := collect files_to_add sample_rnd sample_project in
  let c1 := add_file_references sample_project (file_refs st) in
  exists c3,
    add_to_sources_phase sample_phase_id sample_after_two (build_files st)
    = Some c3 /\
    ins_before (end_marker FileReference)
               (concat (file_ref_entries (file_refs st))) sample_project c1 /\
    ins_before (end_marker BuildFile)
               (concat (build_file_entries (file_refs st) (build_files st)))
               c1 sample_after_two /\
    (c3 = sample_after_two \/
     exists p q,
       sample_after_two = p ++ q /\
       c3 = p ++ concat (sources_entries (build_files st)) ++ q /\
       (q = [] \/ exists r, q = ")"%char :: r)) /\
    subseq sample_project c3.
Proof.
  apply (patch_only_inserts files_to_add sample_rnd sample_phase_id
                            sample_project sample_after_two).
  - vm_compute. reflexivity.
  - exact files_to_add_plain.
  - vm_compute. reflexivity.
  - intros m H.
    assert (E : m = sample_phase_match).
    { unfold sample_phase_match. rewrite H. reflexivity. }
    rewrite E. vm_compute. reflexivity.
Defined.

(** ** The order of allocation *)

Lemma dict_set_fresh (k v : str) (d : dict) :
  ~ In k (map fst d) -> dict_set k v d = d ++ [(k, v)].
Proof.
  induction d as [|[k' v'] d IH]; intros H; simpl; [reflexivity|].
  destruct (str_eqb k k') eqn:E.
  - apply str_eqb_eq in E. subst k'. exfalso. apply H. left. reflexivity.
  - rewrite IH; [reflexivity|]. intros I. apply H. right. exact I.
Qed.

Lemma allocate_cons (rnd : nat -> N) (offset from : nat) (p : str)
  (paths : list str) :
  allocate rnd offset from (p :: paths)
  = (p, generate_uuid (rnd (2 * from + offset)))
      :: allocate rnd offset (S from) paths.
Proof. reflexivity. Qed.

Lemma loop_step_present (rnd : nat -> N) (content : str)
  (st : loop_state) (p : str) :
  contains p content = true ->
  loop_step rnd content st p
  = mkLoop (file_refs st) (build_files st) (drawn st)
           (printed st ++ [already_exists_line p]).
Proof. intros C. unfold loop_step. rewrite C. reflexivity. Qed.

Lemma loop_step_absent (rnd : nat -> N) (content : str)
  (st : loop_state) (p : str) :
  contains p content = false ->
  loop_step rnd content st p
  = mkLoop (dict_set p (generate_uuid (rnd (drawn st))) (file_refs st))
           (dict_set p (generate_uuid (rnd (S (drawn st)))) (build_files st))
           (S (S (drawn st))) (printed st).
Proof. intros C. unfold loop_step. rewrite C. reflexivity. Qed.

Lemma loop_allocate (rnd : nat -> N) (content : str) (files : list str)
  (st : loop_state) (n0 : nat) :
  NoDup files ->
  (forall p, In p files -> ~ In p (map fst (file_refs st))) ->
  (forall p, In p files -> ~ In p (map fst (build_files st))) ->
  drawn st = 2 * n0 ->
  let st' := fold_left (loop_step rnd content) files st in
  file_refs st'
  = file_refs st ++ allocate rnd 0 n0 (filter (absent content) files) /\
  build_files st'
  = build_files st ++ allocate rnd 1 n0 (filter (absent content) files).
Proof.
  revert st n0. induction files as [|p files IH]; intros st n0 ND F1 F2 D.
  - simpl. rewrite !app_nil_r. auto.
  - inversion ND as [|p' l' Np ND']; subst.
    cbn [fold_left filter]. destruct (contains p content) eqn:C.
    + rewrite (loop_step_present rnd content st p C).
      assert (A : absent content p = false)
        by (unfold absent; rewrite C; reflexivity).
      rewrite A.
      destruct (IH (mkLoop (file_refs st) (build_files st) (drawn st)
                           (printed st ++ [already_exists_line p])) n0 ND')
        as [R1 R2].
      * intros q Hq. apply F1. right. exact Hq.
      * intros q Hq. apply F2. right. exact Hq.
      * exact D.
      * split; [exact R1 | exact R2].
    + rewrite (loop_step_absent rnd content st p C).
      assert (A : absent content p = true)
        by (unfold absent; rewrite C; reflexivity).
      rewrite A, !allocate_cons.
      rewrite (dict_set_fresh p _ (file_refs st))
        by (apply F1; left; reflexivity).
      rewrite (dict_set_fresh p _ (build_files st))
        by (apply F2; left; reflexivity).
      destruct (IH (mkLoop (file_refs st
                              ++ [(p, generate_uuid (rnd (drawn st)))])
                           (build_files st
                              ++ [(p, generate_uuid (rnd (S (drawn st))))])
                           (S (S (drawn st))) (printed st)) (S n0) ND')
        as [R1 R2].
      * intros q Hq. cbn [file_refs]. rewrite map_app, in_app_iff.
        intros [I|[I|[]]]; [apply (F1 q); [right|]; assumption|].
        simpl in I. subst q. contradiction.
      * intros q Hq. cbn [build_files]. rewrite map_app, in_app_iff.
        intros [I|[I|[]]]; [apply (F2 q); [right|]; assumption|].
        simpl in I. subst q. contradiction.
      * cbn [drawn]. lia.
      * cbv zeta in R1, R2. rewrite R1, R2. cbn [file_refs build_files].
        rewrite <- !app_assoc. rewrite D.
        replace (2 * n0 + 0) with (2 * n0) by lia.
        replace (2 * n0 + 1) with (S (2 * n0)) by lia.
        split; reflexivity.
Qed.

(** X11: the order of allocation.  For a target list without
    duplicates, the dicts hold the absent paths in list order, and the
    [k]-th of them (from 0) has the identifier of draw [2k] as its
    file reference and the identifier of draw [2k + 1] as its build
    file. *)
Theorem allocation_order (files : list str) (rnd : nat -> N) (content : str) :
  NoDup files ->
  let st := collect files rnd content in
  file_refs st = allocate rnd 0 0 (filter (absent content) files) /\
  build_files st = allocate rnd 1 0 (filter (absent content) files).
Proof.
  intros ND. unfold collect.
  apply (loop_allocate rnd content files (mkLoop [] [] 0 []) 0 ND); simpl;
    auto.
Qed.

Lemma files_to_add_NoDup : NoDup files_to_add.
Proof.
  assert (H : keys_of files_to_add = files_to_add)
    by (vm_compute; reflexivity).
  rewrite <- H. apply keys_of_NoDup.
Qed.

Lemma allocation_order_witness :
  let st := collect files_to_add sample_rnd sample_two in
  file_refs st
  = allocate sample_rnd 0 0 (filter (absent sample_two) files_to_add) /\
  build_files st
  = allocate sample_rnd 1 0 (filter (absent sample_two) files_to_add).
Proof.
  apply (allocation_order files_to_add sample_rnd sample_two).
  exact files_to_add_NoDup.
Defined.

(** ** The result of a section step *)

Lemma contains_cons_false (t : str) (c : ascii) (s : str) :
  contains t (c :: s) = false ->
  startswith t (c :: s) = false /\ contains t s = false.
Proof. rewrite contains_eq. apply orb_false_iff. Qed.

Lemma replace_go_absent (old new : str) (fuel : nat) (s : str) :
  contains old s = false -> replace_go fuel old new s = s.
Proof.
  revert s. induction fuel as [|f IH]; intros s H; [reflexivity|].
  destruct s as [|c s]; simpl.
  - rewrite contains_eq in H. apply orb_false_iff in H. destruct H as [H _].
    unfold startswith in H. destruct (strip_prefix old []); [discriminate|].
    reflexivity.
  - apply contains_cons_false in H. destruct H as [H1 H2].
    unfold startswith in H1.
    destruct (strip_prefix old (c :: s)); [discriminate|].
    rewrite IH; auto.
Qed.

Lemma replace_go_first (old new b : str) (a : str) (fuel : nat) :
  (forall a1 a2, a = a1 ++ a2 -> a2 <> [] ->
                 startswith old (a2 ++ old ++ b) = false) ->
  contains old b = false ->
  length (a ++ old ++ b) < fuel ->
  replace_go fuel old new (a ++ old ++ b) = a ++ new ++ b.
Proof.
  intros H Hb. revert fuel H.
  induction a as [|c a IH]; intros fuel H Hf; (destruct fuel as [|f]; [lia|]).
  - simpl. rewrite strip_prefix_self, replace_go_absent; auto.
  - pose proof (H [] (c :: a) eq_refl) as H0.
    unfold startswith in H0.
    change ((c :: a) ++ old ++ b) with (c :: (a ++ old ++ b)) in *.
    cbn [replace_go].
    destruct (strip_prefix old (c :: a ++ old ++ b)).
    + discriminate H0. discriminate.
    + rewrite IH; [reflexivity| |simpl in Hf; lia].
      intros a1 a2 E Ha. apply (H (c :: a1) a2); [|exact Ha].
      rewrite E. reflexivity.
Qed.

Lemma startswith_app_false (p q s : str) :
  startswith p s = false -> startswith (p ++ q) s = false.
Proof.
  intros H. destruct (startswith (p ++ q) s) eqn:E; [|reflexivity].
  apply startswith_true in E. destruct E as [r E].
  assert (startswith p s = true).
  { apply startswith_true. exists (q ++ r). rewrite E, app_assoc.
    reflexivity. }
  congruence.
Qed.

Lemma contains_app_false (p q s : str) :
  contains p s = false -> contains (p ++ q) s = false.
Proof.
  intros H. destruct (contains (p ++ q) s) eqn:E; [|reflexivity].
  apply contains_Sub in E. assert (Sub p s).
  { eapply Sub_trans; [|exact E]. apply Sub_app_r, Sub_refl. }
  apply contains_Sub in H0. congruence.
Qed.

(** Replacing a section that is found, when no begin marker follows
    it. *)
Lemma section_replace_exact (name s block : str) (m : rmatch) :
  search (section_re name) s = Some m ->
  contains (begin_marker name) (m_after m) = false ->
  str_replace s (group0 m) (group_span 0 2 m ++ block ++ end_marker name)
  = m_before m ++ group_span 0 2 m ++ block ++ end_marker name ++ m_after m.
Proof.
  intros S1 Hb.
  destruct (section_search_first _ _ _ S1) as [body [E [G0 [G1 [Fb _]]]]].
  rewrite G0, G1.
  assert (R : forall fuel, length s < fuel ->
              replace_go fuel (begin_marker name ++ body ++ end_marker name)
                ((begin_marker name ++ body) ++ block ++ end_marker name) s
              = m_before m ++ (begin_marker name ++ body) ++ block
                  ++ end_marker name ++ m_after m).
  { intros fuel Hf. revert Hf. rewrite E.
    replace (m_before m ++ begin_marker name ++ body ++ end_marker name
               ++ m_after m)
      with (m_before m ++ (begin_marker name ++ body ++ end_marker name)
              ++ m_after m)
      by (rewrite <- !app_assoc; reflexivity).
    intros Hf. rewrite replace_go_first.
    - rewrite <- !app_assoc. reflexivity.
    - intros a1 a2 Ea Ha. rewrite <- !app_assoc.
      apply startswith_app_false. apply (Fb a1 a2 Ea Ha).
    - apply contains_app_false. exact Hb.
    - exact Hf. }
  unfold str_replace.
  destruct (begin_marker name ++ body ++ end_marker name) as [|c old] eqn:O.
  { apply app_eq_nil in O. destruct O as [O _]. discriminate. }
  apply R. lia.
Qed.

(** X12: the file-reference step.  When the section is found and no
    begin marker follows it, the step returns the text with one entry
    per queued file, in queue order, between the body of the section
    and its end marker, and nothing else changed. *)
Theorem file_reference_step (content : str) (frefs : dict) (m : rmatch) :
  search (section_re FileReference) content = Some m ->
  contains (begin_marker FileReference) (m_after m) = false ->
  add_file_references content frefs
  = m_before m ++ group_span 0 2 m ++ concat (file_ref_entries frefs)
      ++ end_marker FileReference ++ m_after m.
Proof.
  intros S1 Hb. unfold add_file_references. rewrite S1, file_ref_block_eq.
  rewrite <- app_assoc. apply section_replace_exact; assumption.
Qed.

Lemma file_reference_step_witness :
  add_file_references sample_project (file_refs sample_queue)
  = m_before sample_ref_match ++ group_span 0 2 sample_ref_match
      ++ concat (file_ref_entries (file_refs sample_queue))
      ++ end_marker FileReference ++ m_after sample_ref_match.
Proof.
  apply (file_reference_step sample_project (file_refs sample_queue)
                             sample_ref_match).
  - vm_compute. reflexivity.
  - vm_compute. reflexivity.
Defined.

(** X13: the build-file step, likewise, for dicts with the same keys:
    each entry carries the build-file identifier of its path and, as
    [fileRef], the file-reference identifier of the same path. *)
Theorem build_file_step (content : str) (frefs bfiles : dict) (m : rmatch) :
  map fst bfiles = map fst frefs ->
  search (section_re BuildFile) content = Some m ->
  contains (begin_marker BuildFile) (m_after m) = false ->
  add_build_files content frefs bfiles
  = Some (m_before m ++ group_span 0 2 m
            ++ concat (build_file_entries frefs bfiles)
            ++ end_marker BuildFile ++ m_after m).
Proof.
  intros K S1 Hb. unfold add_build_files. rewrite S1.
  rewrite build_file_block_eq by (intros k Hk; rewrite <- K; exact Hk).
  rewrite <- app_assoc. f_equal. apply section_replace_exact; assumption.
Qed.

Lemma build_file_step_witness :
  add_build_files sample_project (file_refs sample_queue)
                  (build_files sample_queue)
  = Some (m_before sample_build_match ++ group_span 0 2 sample_build_match
            ++ concat (build_file_entries (file_refs sample_queue)
                                          (build_files sample_queue))
            ++ end_marker BuildFile ++ m_after sample_build_match).
Proof.
  apply (build_file_step sample_project (file_refs sample_queue)
                         (build_files sample_queue) sample_build_match).
  - vm_compute. reflexivity.
  - vm_compute. reflexivity.
  - vm_compute. reflexivity.
Defined.

(** ** When the file is written *)



(** ** The dicts *)

(** X17: assignment and lookup in a dict.  After [d[k] = v], looking
    [k] up gives [v] and every other key gives what it gave before; a
    key that was in the dict keeps its place, a new key goes to the
    end. *)
Theorem dict_assign_lookup (k v k' : str) (d : dict) :
  dict_get k' (dict_set k v d)
  = (if str_eqb k' k then Some v else dict_get k' d) /\
  map fst (dict_set k v d) = add_key (map fst d) k.
Proof.
  split; [|apply dict_set_keys].
  induction d as [|[k0 v0] d IH]; simpl.
  - destruct (str_eqb k' k); reflexivity.
  - destruct (str_eqb k k0) eqn:E; simpl.
    + apply str_eqb_eq in E. subst k0.
      destruct (str_eqb k' k); reflexivity.
    + destruct (str_eqb k' k0) eqn:E'.
      * apply str_eqb_eq in E'. subst k0.
        destruct (str_eqb k' k) eqn:E''; [|reflexivity].
        apply str_eqb_eq in E''. subst k'. rewrite str_eqb_refl in E.
        discriminate.
      * exact IH.
Qed.
